(** * useSocket: the client-side synchronisation hook of the UNO game

    Shallow embedding of
    [games/UNO/packages/unoenty/src/hooks/useSocket.tsx].

    The hook closes over two collaborators: the socket store (game, local
    player, chats) and the socket service (emit / on / getPlayerData).
    View derivations are pure functions of the store.  Action dispatchers
    and event handlers are written in a small free monad [Prog] whose
    nodes are the store reads and writes, the socket calls and the
    invocations of caller-supplied callbacks; [exec] runs a program up to
    its first [await]. *)

From stdpp Require Import base option list strings gmap.

Open Scope Z_scope.

(** ** Wire-format data

    JavaScript strings are [string], numbers used as indices are [Z]
    (a miss of [findIndex] is [-1]), arrays are lists.  A field that the
    code reads through [?.] or that the code itself may leave out of an
    object it builds is an [option]: [None] is [undefined]. *)

Module CardData.
Record t := mk {
  id : string;
  color : string;
  name : string;
}.
End CardData.

Module PlayerData.
Record t := mk {
  id : string;
  name : string;
  ready : bool;
  status : string;
  handCards : list CardData.t;
}.

(** [{ ...player, ready: r }] *)
Definition withReady (r : bool) (p : t) : t :=
  mk (id p) (name p) r (status p) (handCards p).

(** [player.status = s] *)
Definition withStatus (s : string) (p : t) : t :=
  mk (id p) (name p) (ready p) s (handCards p).

(** [{ ...player, handCards: cs }] *)
Definition withHandCards (cs : list CardData.t) (p : t) : t :=
  mk (id p) (name p) (ready p) (status p) cs.
End PlayerData.

Module Game.
(** [toggleReady] and [toggleOnlineStatus] build their next game from
    [{ ...socketStore?.game }], which is the empty object when no game is
    loaded, so every property of a game may be absent.  [rest] holds the
    own properties this hook never reads (title, round, ...), by name. *)
Record t := mk {
  status : option string;
  currentPlayerIndex : option Z;
  players : option (list PlayerData.t);
  usedCards : option (list CardData.t);
  rest : gmap string string;
}.

(** [{}] *)
Definition empty : t := mk None None None None ∅.

(** [{ ...game }] for a game that may be [undefined] *)
Definition spread (g : option t) : t := default empty g.

(** [lastState.players = ps] *)
Definition withPlayers (ps : list PlayerData.t) (g : t) : t :=
  mk (status g) (currentPlayerIndex g) (Some ps) (usedCards g) (rest g).

(** [{ ...game, players: ps, usedCards: cs }]; [ps] is the result of
    [game?.players?.map(...)], [undefined] when the game has no players. *)
Definition withPlayersAndUsedCards
    (ps : option (list PlayerData.t)) (cs : list CardData.t) (g : t) : t :=
  mk (status g) (currentPlayerIndex g) ps (Some cs) (rest g).
End Game.

Definition ChatMessage : Type := string.

Module Chat.
Record t := mk {
  id : string;
  messages : list ChatMessage;
}.
End Chat.

(** What a JavaScript expression of type [A | null] evaluates to, keeping
    [undefined] apart from [null]. *)
Inductive Nullable (A : Type) : Type :=
| Null
| Undefined
| Value (a : A).
Arguments Null {A}.
Arguments Undefined {A}.
Arguments Value {A} a.

(** ** Array helpers with their JavaScript meaning *)

(** [arr.find(P)] *)
Definition find {A} (P : A → Prop) `{!∀ x, Decision (P x)}
    (l : list A) : option A :=
  snd <$> list_find P l.

(** [arr.findIndex(P)]: the first index whose element satisfies [P],
    [-1] when there is none. *)
Definition findIndex {A} (P : A → Prop) `{!∀ x, Decision (P x)}
    (l : list A) : Z :=
  match list_find P l with
  | Some (i, _) => Z.of_nat i
  | None => -1
  end.

(** Relative index of [slice]: negative counts from the end, and the
    result is clamped to [0 .. len]. *)
Definition relativeIndex (len i : Z) : Z :=
  if decide (i < 0) then Z.max (len + i) 0 else Z.min i len.

(** [arr.slice(from, to)] *)
Definition slice {A} (from to : Z) (l : list A) : list A :=
  let len := Z.of_nat (length l) in
  let k := relativeIndex len from in
  let final := relativeIndex len to in
  take (Z.to_nat (final - k)) (drop (Z.to_nat k) l).

(** [arr[i]] for an integer [i]: [undefined] outside the array. *)
Definition index {A} (l : list A) (i : Z) : option A :=
  if decide (0 ≤ i) then l !! Z.to_nat i else None.

(** [ids.includes(x)] *)
Definition includes (ids : list string) (x : string) : Prop := x ∈ ids.

#[global] Instance includes_dec ids x : Decision (includes ids x) :=
  decide (x ∈ ids).

(** ** The socket store

    [useSocketStore] lives outside this file; the hook only uses its three
    readable fields and four setters. *)

Record SocketStore := mkStore {
  game : option Game.t;
  player : option PlayerData.t;
  chats : gmap string Chat.t;
}.

(** Modelled from the spec: [setGameData(Game)] of the store contract,
    a whole-object replace of the store's game. *)
Definition setGameData (g : Game.t) (s : SocketStore) : SocketStore :=
  mkStore (Some g) (player s) (chats s).

(** Modelled from the spec: [setPlayerData(Player)] of the store contract,
    a whole-object replace of the store's local player. *)
Definition setPlayerData (p : PlayerData.t) (s : SocketStore) : SocketStore :=
  mkStore (game s) (Some p) (chats s).

(** Modelled from the spec: [setChatData(Chat)] of the store contract; the
    chat is stored under its own id in the chat mapping. *)
Definition setChatData (c : Chat.t) (s : SocketStore) : SocketStore :=
  mkStore (game s) (player s) (<[Chat.id c := c]> (chats s)).

(** Modelled from the spec: [addChatMessage(chatId, message)] of the store
    contract.  Chats are append-only sequences of messages keyed by chat
    id; a message for an id without an entry starts that chat. *)
Definition addChatMessage (chatId : string) (m : ChatMessage)
    (s : SocketStore) : SocketStore :=
  let old := from_option Chat.messages [] (chats s !! chatId) in
  mkStore (game s) (player s)
          (<[chatId := Chat.mk chatId (old ++ [m])]> (chats s)).

(** [socketStore?.game?.players] *)
Definition storePlayers (s : SocketStore) : option (list PlayerData.t) :=
  game s ≫= Game.players.

(** [socketStore?.player?.id] *)
Definition localPlayerId (s : SocketStore) : option string :=
  PlayerData.id <$> player s.

(** [player.id === socketStore?.player?.id]: never true while the store
    has no local player. *)
Definition isLocal (s : SocketStore) (p : PlayerData.t) : Prop :=
  localPlayerId s = Some (PlayerData.id p).

#[global] Instance isLocal_dec s p : Decision (isLocal s p) :=
  decide (localPlayerId s = Some (PlayerData.id p)).

(** ** The socket service and the effects of the hook *)

Inductive Request : Type :=
| JoinGame (gameId : string)
| ToggleReady (gameId : string)
| BuyCard (gameId : string)
| PutCard (gameId : string) (cardIds : list string) (selectedColor : string)
| ChangePlayerStatus (gameId : string) (playerStatus : string)
| SendChatMessage (chatId : string) (message : string)
| ForceSelfDisconnect (gameId : string).

(** What the promise of [emit] resolves with: the join response is the
    only one the hook looks into. *)
Inductive Response : Type :=
| JoinGameEventResponse (game : Game.t) (chat : Chat.t)
| NoPayload.

Inductive Error : Type :=
| TypeError
| TransportError (reason : string).

(** A caller-supplied function, known by name only. *)
Definition Callback : Type := string.

Inductive CallArgs : Type :=
| NoArgs
| PlayerStateArgs (playerState : string) (playerId : string)
    (amountToBuy : option Z).

(** What the hook does to the outside, in program order.  A callback is
    logged with the store it can read when it is entered. *)
Inductive Effect : Type :=
| Sent (r : Request)
| AskedPlayerData
| Called (fn : Callback) (args : CallArgs) (seen : SocketStore).

(** Programs of the hook.  [Emit] starts a request and drops its promise;
    [AwaitEmit] and [AwaitPlayerData] suspend the enclosing [async]
    function until the promise settles. *)
Inductive Prog (A : Type) : Type :=
| Return (a : A)
| Throw (e : Error)
| ReadStore (k : SocketStore → Prog A)
| WriteStore (f : SocketStore → SocketStore) (k : Prog A)
| Emit (r : Request) (k : Prog A)
| AwaitEmit (r : Request) (k : Response → Prog A)
| AwaitPlayerData (k : PlayerData.t → Prog A)
| Call (fn : Callback) (args : CallArgs) (k : Prog A).
Arguments Return {A} a.
Arguments Throw {A} e.
Arguments ReadStore {A} k.
Arguments WriteStore {A} f k.
Arguments Emit {A} r k.
Arguments AwaitEmit {A} r k.
Arguments AwaitPlayerData {A} k.
Arguments Call {A} fn args k.

Fixpoint Prog_bind {A B} (f : A → Prog B) (m : Prog A) : Prog B :=
  match m with
  | Return a => f a
  | Throw e => Throw e
  | ReadStore k => ReadStore (λ s, Prog_bind f (k s))
  | WriteStore g k => WriteStore g (Prog_bind f k)
  | Emit r k => Emit r (Prog_bind f k)
  | AwaitEmit r k => AwaitEmit r (λ v, Prog_bind f (k v))
  | AwaitPlayerData k => AwaitPlayerData (λ v, Prog_bind f (k v))
  | Call fn args k => Call fn args (Prog_bind f k)
  end.

#[global] Instance Prog_mret : MRet Prog := @Return.
#[global] Instance Prog_mbind : MBind Prog := @Prog_bind.

Definition readStore : Prog SocketStore := ReadStore Return.
Definition writeStore (f : SocketStore → SocketStore) : Prog unit :=
  WriteStore f (Return ()).
Definition emit (r : Request) : Prog unit := Emit r (Return ()).
Definition awaitEmit (r : Request) : Prog Response := AwaitEmit r Return.
Definition awaitPlayerData : Prog PlayerData.t := AwaitPlayerData Return.
Definition call (fn : Callback) (args : CallArgs) : Prog unit :=
  Call fn args (Return ()).

Record World := mkWorld {
  store : SocketStore;
  trace : list Effect;
}.

Definition logged (e : Effect) (w : World) : World :=
  mkWorld (store w) (trace w ++ [e]).

Definition written (f : SocketStore → SocketStore) (w : World) : World :=
  mkWorld (f (store w)) (trace w).

(** How a run ends: the function returned (its promise is fulfilled), it
    threw (its promise is rejected), or it is parked at an [await] with
    the rest of its body. *)
Inductive Outcome (A : Type) : Type :=
| Finished (a : A)
| Failed (e : Error)
| AwaitingResponse (k : Response → Prog A)
| AwaitingPlayer (k : PlayerData.t → Prog A).
Arguments Finished {A} a.
Arguments Failed {A} e.
Arguments AwaitingResponse {A} k.
Arguments AwaitingPlayer {A} k.

(** Run a program on the single thread of control until it ends or
    reaches an [await]. *)
Fixpoint exec {A} (p : Prog A) (w : World) : World * Outcome A :=
  match p with
  | Return a => (w, Finished a)
  | Throw e => (w, Failed e)
  | ReadStore k => exec (k (store w)) w
  | WriteStore f k => exec k (written f w)
  | Emit r k => exec k (logged (Sent r) w)
  | AwaitEmit r k => (logged (Sent r) w, AwaitingResponse k)
  | AwaitPlayerData k => (logged AskedPlayerData w, AwaitingPlayer k)
  | Call fn args k => exec k (logged (Called fn args (store w)) w)
  end.

(** How an awaited promise settles. *)
Inductive Settled (V : Type) : Type :=
| Resolved (v : V)
| Rejected (e : Error).
Arguments Resolved {V} v.
Arguments Rejected {V} e.

(** Wake a parked function in the world of the moment.  No function of
    the hook catches, so a rejected promise rejects the function. *)
Definition resume {A V} (k : V → Prog A) (r : Settled V) (w : World)
  : World * Outcome A :=
  match r with
  | Resolved v => exec (k v) w
  | Rejected e => (w, Failed e)
  end.

(** ** View derivation *)

Definition getCurrentRoundPlayer (s : SocketStore) : option PlayerData.t :=
  match game s ≫= Game.currentPlayerIndex, storePlayers s with
  | Some currentPlayerIndex, Some players => index players currentPlayerIndex
  | _, _ => None
  end.

(** [game || socketStore?.game]: a game object is always truthy. *)
Definition getWinner (game_ : option Game.t) (s : SocketStore)
  : Nullable PlayerData.t :=
  let gameFallback := match game_ with Some g => Some g | None => game s end in
  if decide (gameFallback ≫= Game.status = Some "ended") then
    match gameFallback ≫= Game.currentPlayerIndex,
          gameFallback ≫= Game.players with
    | Some winnerPlayerIndex, Some players =>
        match index players winnerPlayerIndex with
        | Some winnerPlayer => Value winnerPlayer
        | None => Undefined
        end
    | _, _ => Undefined
    end
  else Null.

(** [players || socketStore?.game?.players]: an array, even an empty one,
    is truthy. *)
Definition getCurrentPlayer (players_ : option (list PlayerData.t))
    (s : SocketStore) : option PlayerData.t :=
  let playersFallback :=
    match players_ with Some ps => Some ps | None => storePlayers s end in
  playersFallback ≫= find (isLocal s).

(** The list [otherPlayers] holds before the layout padding: the players
    seated after the local player followed by those seated before. *)
Definition rotatedPlayers (s : SocketStore) : list PlayerData.t :=
  match storePlayers s with
  | None => []
  | Some players =>
      let totalPlayers := Z.of_nat (length players) in
      let currentPlayerIndex := findIndex (isLocal s) players in
      let currentPlayerIndex :=
        if decide (currentPlayerIndex = -1) then totalPlayers
        else currentPlayerIndex in
      let otherPlayersBeforeCurrentPlayer :=
        slice 0 currentPlayerIndex players in
      let otherPlayersAfterCurrentPlayer :=
        slice (currentPlayerIndex + 1) (Z.of_nat (length players)) players in
      otherPlayersAfterCurrentPlayer ++ otherPlayersBeforeCurrentPlayer
  end.

(** An entry of the list [getOtherPlayers] returns. *)
Inductive Seat : Type :=
| Opponent (p : PlayerData.t)
| EmptyObject
| NoPlayer.

(** [otherPlayers[i]] for a literal index: [undefined] past the end. *)
Definition seatAt (others : list PlayerData.t) (i : nat) : Seat :=
  match others !! i with
  | Some p => Opponent p
  | None => NoPlayer
  end.

(** [totalPlayers] is [undefined] when there is no player list, and
    [undefined <= 4] is false. *)
Definition getOtherPlayers (s : SocketStore) : list Seat :=
  let otherPlayers := rotatedPlayers s in
  match storePlayers s with
  | Some players =>
      if decide (Z.of_nat (length players) ≤ 4) then
        [ seatAt otherPlayers 0; EmptyObject;
          seatAt otherPlayers 1; EmptyObject;
          seatAt otherPlayers 2; EmptyObject;
          seatAt otherPlayers 3 ]
      else Opponent <$> otherPlayers
  | None => Opponent <$> otherPlayers
  end.

(** ** Action dispatchers *)

Definition joinGame (gameId : string) : Prog Game.t :=
  response ← awaitEmit (JoinGame gameId);
  match response with
  | JoinGameEventResponse game chat =>
      writeStore (setGameData game);;
      writeStore (setChatData chat);;
      mret game
  | NoPayload => Throw TypeError
  end.

Definition toggleReady (gameId : string) : Prog unit :=
  emit (ToggleReady gameId);;
  socketStore ← readStore;
  let lastState := Game.spread (game socketStore) in
  let lastState :=
    Game.withPlayers
      ((λ player,
          if decide (isLocal socketStore player)
          then PlayerData.withReady (negb (PlayerData.ready player)) player
          else player)
         <$> default [] (Game.players lastState))
      lastState in
  writeStore (setGameData lastState).

Definition buyCard (gameId : string) : Prog unit :=
  awaitEmit (BuyCard gameId);; mret ().

(** The [forEach] loop of [putCard]: for each requested id in turn, the
    first card of the hand with that id, if there is one, is pushed. *)
Definition collectCards (player : PlayerData.t) (cardIds : list string)
  : list CardData.t :=
  foldl (λ cards cardId,
           match find (λ card, CardData.id card = cardId)
                      (PlayerData.handCards player) with
           | Some card => cards ++ [card]
           | None => cards
           end)
        [] cardIds.

(** [{ ...player, handCards: player.handCards.filter(handCard =>
    !cardIds.includes(handCard.id)) }] *)
Definition withoutCards (cardIds : list string) (player : PlayerData.t)
  : PlayerData.t :=
  PlayerData.withHandCards
    (filter (λ handCard, ¬ includes cardIds (CardData.id handCard))
            (PlayerData.handCards player))
    player.

(** [[...cards, ...socketStore?.game?.usedCards]] spreads an array: it
    throws a [TypeError] when the game has no [usedCards]. *)
Definition putCard (gameId : string) (cardIds : list string)
    (selectedColor : string) : Prog unit :=
  emit (PutCard gameId cardIds selectedColor);;
  socketStore ← readStore;
  match storePlayers socketStore ≫= find (isLocal socketStore) with
  | None => mret ()
  | Some player =>
      let cards := collectCards player cardIds in
      let players :=
        fmap (M := list)
          (λ player,
             if decide (isLocal socketStore player)
             then withoutCards cardIds player
             else player)
          <$> storePlayers socketStore in
      match game socketStore ≫= Game.usedCards with
      | None => Throw TypeError
      | Some usedCards =>
          writeStore
            (setGameData
               (Game.withPlayersAndUsedCards players (cards ++ usedCards)
                  (Game.spread (game socketStore))))
      end
  end.

(** The assignment [player.status = "online"] is made on the player
    object itself; the store reaches each player object through one
    place only, its game's player list, so the store afterwards is the
    one with an updated copy. *)
Definition toggleOnlineStatus (gameId : string) : Prog unit :=
  awaitEmit (ChangePlayerStatus gameId "online");;
  socketStore ← readStore;
  let lastState := Game.spread (game socketStore) in
  let lastState :=
    Game.withPlayers
      ((λ player,
          if decide (isLocal socketStore player)
          then PlayerData.withStatus "online" player
          else player)
         <$> default [] (Game.players lastState))
      lastState in
  writeStore (setGameData lastState).

Definition sendChatMessage (chatId message : string) : Prog unit :=
  awaitEmit (SendChatMessage chatId message);; mret ().

Definition forceSelfDisconnect (gameId : string) : Prog unit :=
  awaitEmit (ForceSelfDisconnect gameId);; mret ().

(** [!chatId] holds for [undefined] and for the empty string. *)
Definition getChat (chatId : option string) (s : SocketStore)
  : option Chat.t :=
  match chatId with
  | None => None
  | Some EmptyString => None
  | Some chatId => chats s !! chatId
  end.

(** ** Event subscribers *)

(** Events the server pushes, with their data. *)
Inductive Pushed : Type :=
| GameStarted (game : Game.t)
| NewMessage (chatId : string) (message : ChatMessage)
| GameListUpdated
| PlayerBuyCards (playerId : string) (amountToBuy : Z)
| PlayerBlocked (playerId : string)
| PlayerUno (playerId : string)
| Reconnect.

(** [SocketService.on(name, handler)], one constructor per event name. *)
Inductive Subscription : Type :=
| OnGameStarted (handler : Game.t → Prog unit)
| OnNewMessage (handler : string → ChatMessage → Prog unit)
| OnGameListUpdated (handler : Prog unit)
| OnPlayerBuyCards (handler : string → Z → Prog unit)
| OnPlayerBlocked (handler : string → Prog unit)
| OnPlayerUno (handler : string → Prog unit)
| OnReconnect (handler : Prog unit).

Definition onGameStart (fn : Callback) : list Subscription :=
  [ OnGameStarted (λ game,
      writeStore (setGameData game);;
      call fn NoArgs) ].

Definition onNewChatMessage (fn : option Callback) : list Subscription :=
  [ OnNewMessage (λ chatId message,
      writeStore (addChatMessage chatId message);;
      match fn with
      | Some fn => call fn NoArgs
      | None => mret ()
      end) ].

Definition onGameListUpdated (fn : Callback) : list Subscription :=
  [ OnGameListUpdated (call fn NoArgs) ].

Definition onPlayerStateChange (fn : Callback) : list Subscription :=
  [ OnPlayerBuyCards (λ playerId amountToBuy,
      call fn (PlayerStateArgs "BuyCards" playerId (Some amountToBuy)));
    OnPlayerBlocked (λ playerId,
      call fn (PlayerStateArgs "Blocked" playerId None));
    OnPlayerUno (λ playerId,
      call fn (PlayerStateArgs "Uno" playerId None)) ].

Definition onReconnect (fn : Callback) : list Subscription :=
  [ OnReconnect (
      playerData ← awaitPlayerData;
      writeStore (setPlayerData playerData);;
      call fn NoArgs) ].

(** The handler body a subscription runs for a pushed event, if the
    subscription is for that event's name. *)
Definition reaction (sub : Subscription) (ev : Pushed)
  : option (Prog unit) :=
  match sub, ev with
  | OnGameStarted h, GameStarted game => Some (h game)
  | OnNewMessage h, NewMessage chatId message => Some (h chatId message)
  | OnGameListUpdated h, GameListUpdated => Some h
  | OnPlayerBuyCards h, PlayerBuyCards playerId amountToBuy =>
      Some (h playerId amountToBuy)
  | OnPlayerBlocked h, PlayerBlocked playerId => Some (h playerId)
  | OnPlayerUno h, PlayerUno playerId => Some (h playerId)
  | OnReconnect h, Reconnect => Some h
  | _, _ => None
  end.

(** Delivery of one pushed event: the matching handlers run in
    registration order, each up to its end or its first [await]. *)
Fixpoint deliver (ev : Pushed) (subs : list Subscription) (w : World)
  : World * list (Outcome unit) :=
  match subs with
  | [] => (w, [])
  | sub :: subs =>
      match reaction sub ev with
      | None => deliver ev subs w
      | Some body =>
          let '(w1, o) := exec body w in
          let '(w2, os) := deliver ev subs w1 in
          (w2, o :: os)
      end
  end.

(** ** What an optimistic mutation may touch

    [OptimisticFrame touched s s'] says that [s'] is [s] except for the
    entries of the players [s] recognises as local, which are related by
    [touched], and for [usedCards]: there is a game after exactly when
    there was one before, and a player list after exactly when there was
    one before; the game's status, its turn index and its remaining
    properties, every other player's entry, the store's local player and
    the chats are the same. *)
Record OptimisticFrame (touched : PlayerData.t → PlayerData.t → Prop)
    (s s' : SocketStore) : Prop := {
  frame_game : is_Some (game s') ↔ is_Some (game s);
  frame_status :
    game s' ≫= Game.status = game s ≫= Game.status;
  frame_turn :
    game s' ≫= Game.currentPlayerIndex = game s ≫= Game.currentPlayerIndex;
  frame_rest :
    from_option Game.rest ∅ (game s') = from_option Game.rest ∅ (game s);
  frame_player : player s' = player s;
  frame_chats : chats s' = chats s;
  frame_seats :
    option_Forall2
      (Forall2 (λ p p', if decide (isLocal s p) then touched p p' else p' = p))
      (storePlayers s) (storePlayers s');
}.

(** ** Sample tables

    Small stores on which the properties below are exercised. *)

Definition redFive : CardData.t := CardData.mk "c1" "red" "5".
Definition blueSeven : CardData.t := CardData.mk "c2" "blue" "7".
Definition greenOne : CardData.t := CardData.mk "c0" "green" "1".

Definition ann : PlayerData.t := PlayerData.mk "p1" "Ann" false "online" [].
Definition bob : PlayerData.t :=
  PlayerData.mk "p2" "Bob" false "afk" [redFive; blueSeven].
Definition cat : PlayerData.t := PlayerData.mk "p3" "Cat" true "online" [].
Definition dan : PlayerData.t := PlayerData.mk "p4" "Dan" true "online" [].
Definition eve : PlayerData.t := PlayerData.mk "p5" "Eve" true "online" [].
Definition zed : PlayerData.t := PlayerData.mk "p9" "Zed" false "online" [].

Definition gameOf (status : string) (turn : Z)
    (players : list PlayerData.t) : Game.t :=
  Game.mk (Some status) (Some turn) (Some players) (Some [greenOne]) ∅.

(** Ann and Bob play, Bob is the local player and it is his turn. *)
Definition tableOfTwo : SocketStore :=
  mkStore (Some (gameOf "playing" 1 [ann; bob])) (Some bob) ∅.

(** Five players, Bob is the local player. *)
Definition tableOfFive : SocketStore :=
  mkStore (Some (gameOf "playing" 0 [ann; bob; cat; dan; eve])) (Some bob) ∅.

(** The same five players watched by Zed, who has no seat. *)
Definition watchedTable : SocketStore :=
  mkStore (Some (gameOf "playing" 0 [ann; bob; cat; dan; eve])) (Some zed) ∅.

(** A finished game of two that Bob won. *)
Definition finishedTable : SocketStore :=
  mkStore (Some (gameOf "ended" 1 [ann; bob])) (Some bob) ∅.

(** The table of the specification's example: "p1" with an empty hand,
    the local player "p2" holding one card, "p2" to play. *)
Definition lastCardTable : SocketStore :=
  let p1 := PlayerData.mk "p1" "Ann" false "online" [] in
  let p2 := PlayerData.mk "p2" "Bob" false "online" [redFive] in
  mkStore (Some (gameOf "started" 1 [p1; p2])) (Some p2) ∅.

(** A store before any game was joined. *)
Definition lobby : SocketStore := mkStore None (Some bob) ∅.

(** ** Calls whose request is answered at once

    [answered p reply w] is the run of an [async] function that awaits one
    request: it runs to the [await], and the promise settles with [reply]
    before anything else happens. *)
Definition answered {A} (p : Prog A) (reply : Settled Response) (w : World)
  : World * Outcome A :=
  match exec p w with
  | (w0, AwaitingResponse k) => resume k reply w0
  | done => done
  end.

(** Bob seated at a table whose game came without [usedCards]. *)
Definition tableWithoutUsedCards : SocketStore :=
  mkStore (Some (Game.mk (Some "playing") (Some 1) (Some [ann; bob]) None ∅))
          (Some bob) ∅.

(** * Properties *)

(** ** Array helpers *)

Section array_helpers.
Context {A : Type} (P : A → Prop) `{!∀ x, Decision (P x)}.
Implicit Types l before after : list A.

Lemma list_find_first before x after :
  Forall (λ y, ¬ P y) before → P x →
  list_find P (before ++ x :: after) = Some (length before, x).
Proof.
  intros Hbefore Hx. apply list_find_Some. split_and!.
  - by rewrite list_lookup_middle.
  - done.
  - intros j y Hj Hlt. rewrite lookup_app_l in Hj by done.
    by eapply (Forall_lookup_1 _ _ _ _ Hbefore).
Qed.

Lemma find_Some_split l x :
  find P l = Some x →
  ∃ before after,
    l = before ++ x :: after ∧ Forall (λ y, ¬ P y) before ∧ P x.
Proof.
  unfold find. intros ([i y] & Hfind & ->)%fmap_Some.
  apply list_find_Some in Hfind as (Hi & Hx & Hleast).
  exists (take i l), (drop (S i) l). split_and!; [|  |done].
  - by rewrite take_drop_middle.
  - apply Forall_lookup. intros j z Hj.
    apply lookup_take_Some in Hj as [Hj ?]. eauto.
Qed.

Lemma find_None l : find P l = None ↔ Forall (λ y, ¬ P y) l.
Proof. unfold find. by rewrite fmap_None, list_find_None. Qed.

Lemma find_elem_of l x : find P l = Some x → x ∈ l ∧ P x.
Proof.
  intros (before & after & -> & _ & ?)%find_Some_split.
  split; [|done]. set_solver.
Qed.

Lemma findIndex_first before x after :
  Forall (λ y, ¬ P y) before → P x →
  findIndex P (before ++ x :: after) = Z.of_nat (length before).
Proof. intros. unfold findIndex. by rewrite list_find_first. Qed.

Lemma findIndex_none l :
  Forall (λ y, ¬ P y) l → findIndex P l = -1.
Proof.
  intros Hl. unfold findIndex.
  by rewrite (proj2 (list_find_None P l) Hl).
Qed.

Lemma slice_from_start l (i : nat) :
  (i ≤ length l)%nat → slice 0 (Z.of_nat i) l = take i l.
Proof.
  intros Hi. unfold slice, relativeIndex.
  rewrite decide_False by lia. rewrite decide_False by lia.
  rewrite Z.min_l by lia. rewrite Z.min_l by lia.
  rewrite Z.sub_0_r, Nat2Z.id. done.
Qed.

Lemma slice_to_end l (i : nat) :
  slice (Z.of_nat i) (Z.of_nat (length l)) l = drop i l.
Proof.
  unfold slice, relativeIndex.
  rewrite decide_False by lia. rewrite decide_False by lia.
  rewrite (Z.min_l (Z.of_nat (length l))) by lia.
  destruct (decide (i ≤ length l)%nat) as [Hi|Hi].
  - rewrite Z.min_l by lia. rewrite Nat2Z.id.
    apply take_ge. rewrite length_drop. lia.
  - rewrite Z.min_r by lia. rewrite Z.sub_diag. simpl.
    rewrite (drop_ge l i) by lia. done.
Qed.
End array_helpers.

(** ** View derivation *)

Lemma rotatedPlayers_seated s before me after :
  storePlayers s = Some (before ++ me :: after) →
  Forall (λ p, ¬ isLocal s p) before → isLocal s me →
  rotatedPlayers s = after ++ before.
Proof.
  intros Hps Hbefore Hme. unfold rotatedPlayers. rewrite Hps. simpl.
  rewrite findIndex_first by done.
  rewrite decide_False by lia.
  rewrite slice_from_start by (rewrite length_app; simpl; lia).
  replace (Z.of_nat (length before) + 1) with (Z.of_nat (S (length before)))
    by lia.
  rewrite slice_to_end. rewrite take_app_length. f_equal.
  rewrite (cons_middle me), (assoc_L (++)).
  apply drop_app_length'. rewrite length_app. simpl. lia.
Qed.

Lemma rotatedPlayers_unseated s players :
  storePlayers s = Some players →
  Forall (λ p, ¬ isLocal s p) players →
  rotatedPlayers s = players.
Proof.
  intros Hps Hnone. unfold rotatedPlayers. rewrite Hps. simpl.
  rewrite findIndex_none by done.
  rewrite decide_True by done.
  rewrite slice_from_start by done.
  replace (Z.of_nat (length players) + 1)
    with (Z.of_nat (S (length players))) by lia.
  rewrite slice_to_end. rewrite drop_ge by lia.
  by rewrite firstn_all.
Qed.

Lemma rotatedPlayers_length s players :
  storePlayers s = Some players →
  length (rotatedPlayers s) =
    if decide (Exists (isLocal s) players)
    then (length players - 1)%nat else length players.
Proof.
  intros Hps. destruct (find (isLocal s) players) as [me|] eqn:Hfind.
  - apply find_Some_split in Hfind as (before & after & -> & Hbefore & Hme).
    rewrite (rotatedPlayers_seated s before me after) by done.
    rewrite decide_True.
    + rewrite !length_app. simpl. lia.
    + apply Exists_exists. exists me. split; [set_solver|done].
  - apply find_None in Hfind.
    rewrite (rotatedPlayers_unseated s players) by done.
    rewrite decide_False; [done|].
    by apply Forall_not_Exists.
Qed.

(** C2: before padding, [otherPlayers] is the players seated after the
    local player's (first) index followed by those seated before it, so it
    leaves out the local player and nobody else, and no other player has
    the local id when ids are unique; when the local id is found nowhere
    the index counts as the list length and the result is the whole list,
    in order. *)
Theorem rotatedPlayers_rotation (s : SocketStore)
    (players : list PlayerData.t) :
  storePlayers s = Some players →
  (∀ before me after,
     players = before ++ me :: after →
     isLocal s me →
     Forall (λ p, ¬ isLocal s p) before →
     rotatedPlayers s = after ++ before
     ∧ rotatedPlayers s =
         drop (S (length before)) players ++ take (length before) players
     ∧ (NoDup (PlayerData.id <$> players) →
        Forall (λ p, ¬ isLocal s p) (rotatedPlayers s)))
  ∧ (Forall (λ p, ¬ isLocal s p) players → rotatedPlayers s = players).
Proof.
  intros Hps. split.
  - intros before me after -> Hme Hbefore.
    rewrite (rotatedPlayers_seated s before me after) by done.
    split_and!; [done| |].
    + rewrite take_app_length. f_equal.
      rewrite (cons_middle me), (assoc_L (++)).
      symmetry. apply drop_app_length'. rewrite length_app. simpl. lia.
    + intros Hnodup. apply Forall_app. split; [|done].
      apply Forall_forall. intros p Hp Hlocal.
      rewrite fmap_app, fmap_cons in Hnodup.
      apply NoDup_app in Hnodup as (_ & _ & Hnodup).
      apply NoDup_cons in Hnodup as [Hfresh _].
      apply Hfresh. unfold isLocal in Hme, Hlocal.
      assert (PlayerData.id me = PlayerData.id p) as -> by congruence.
      by apply list_elem_of_fmap_2.
  - by apply rotatedPlayers_unseated.
Qed.

Lemma rotatedPlayers_rotation_witness :
  rotatedPlayers tableOfFive = [cat; dan; eve; ann].
Proof.
  apply (proj1 (rotatedPlayers_rotation tableOfFive [ann; bob; cat; dan; eve]
                  eq_refl) [ann] bob [cat; dan; eve] eq_refl).
  - reflexivity.
  - repeat constructor. vm_compute. discriminate.
Defined.

(** C3 as the code has it: with at most four players the result has seven
    entries, the rotated opponents at 0, 2, 4, 6 in rotation order (no
    player at an even entry whose opponent is missing) and empty objects
    at 1, 3, 5; with more than four players it is the rotated list itself,
    whose length is the player count minus one when the local player is
    seated and the player count when not. *)
Theorem getOtherPlayers_layout (s : SocketStore)
    (players : list PlayerData.t) :
  storePlayers s = Some players →
  ((length players ≤ 4)%nat →
     length (getOtherPlayers s) = 7%nat
     ∧ (∀ k : nat, (k < 4)%nat →
          getOtherPlayers s !! (2 * k)%nat =
            Some (match rotatedPlayers s !! k with
                  | Some p => Opponent p
                  | None => NoPlayer
                  end))
     ∧ (∀ k : nat, (k < 3)%nat →
          getOtherPlayers s !! (2 * k + 1)%nat = Some EmptyObject))
  ∧ ((4 < length players)%nat →
     getOtherPlayers s = Opponent <$> rotatedPlayers s
     ∧ length (getOtherPlayers s) =
         if decide (Exists (isLocal s) players)
         then (length players - 1)%nat else length players).
Proof.
  intros Hps. unfold getOtherPlayers. rewrite Hps. split; intros Hcount.
  - rewrite decide_True by lia. split_and!; [done| |].
    + intros k Hk.
      destruct k as [|[|[|[|k]]]]; [done..|lia].
    + intros k Hk.
      destruct k as [|[|[|k]]]; [done..|lia].
  - rewrite decide_False by lia. split; [done|].
    rewrite length_fmap. by apply rotatedPlayers_length.
Qed.

Lemma getOtherPlayers_layout_witness :
  length (getOtherPlayers tableOfTwo) = 7%nat
  ∧ length (getOtherPlayers tableOfFive) = 4%nat.
Proof.
  split.
  - apply (getOtherPlayers_layout tableOfTwo [ann; bob] eq_refl).
    simpl. lia.
  - apply (getOtherPlayers_layout tableOfFive [ann; bob; cat; dan; eve]
             eq_refl).
    simpl. lia.
Defined.

(** C3 fails as stated: a table of five watched by a local player without
    a seat yields all five players, not four. *)
Lemma getOtherPlayers_unseated_keeps_everyone :
  storePlayers watchedTable = Some [ann; bob; cat; dan; eve]
  ∧ getOtherPlayers watchedTable = Opponent <$> [ann; bob; cat; dan; eve]
  ∧ length (getOtherPlayers watchedTable) ≠ (5 - 1)%nat.
Proof. split_and!; [done..|]. vm_compute. lia. Qed.

(** C5: [getWinner] is [null] for a game that has not ended, and for an
    ended game whose turn index is a valid index into its players it is
    the player at that index.  Called without a game it answers for the
    store's game, and with [null] when the store has none. *)
Theorem getWinner_spec (s : SocketStore) (g : Game.t) :
  (Game.status g ≠ Some "ended" → getWinner (Some g) s = Null)
  ∧ (∀ (i : Z) (players : list PlayerData.t) (p : PlayerData.t),
       Game.status g = Some "ended" →
       Game.currentPlayerIndex g = Some i →
       Game.players g = Some players →
       0 ≤ i → players !! Z.to_nat i = Some p →
       getWinner (Some g) s = Value p)
  ∧ (game s = Some g → getWinner None s = getWinner (Some g) s)
  ∧ (game s = None → getWinner None s = Null).
Proof.
  unfold getWinner. split_and!.
  - intros Hstatus. simpl. by rewrite decide_False.
  - intros i players p Hstatus Hi Hps Hpos Hp. simpl.
    rewrite decide_True by done. rewrite Hi, Hps.
    unfold index. rewrite decide_True by done. by rewrite Hp.
  - by intros ->.
  - by intros ->.
Qed.

Lemma getWinner_spec_witness :
  getWinner None tableOfTwo = Null
  ∧ getWinner None finishedTable = Value bob
  ∧ getWinner None lobby = Null.
Proof.
  split_and!.
  - pose proof (getWinner_spec tableOfTwo (gameOf "playing" 1 [ann; bob]))
      as (Hnull & _ & Hstore & _).
    rewrite Hstore by reflexivity. apply Hnull. simpl. discriminate.
  - pose proof (getWinner_spec finishedTable (gameOf "ended" 1 [ann; bob]))
      as (_ & Hwin & Hstore & _).
    rewrite Hstore by reflexivity.
    apply (Hwin 1 [ann; bob] bob); try reflexivity. lia.
  - pose proof (getWinner_spec lobby Game.empty) as (_ & _ & _ & Hnone).
    apply Hnone. reflexivity.
Defined.

(** ** The local player's entry under an optimistic mutation *)

(** Updating players one by one with a function that keeps ids does not
    move the first player a store recognises as local. *)
Lemma find_isLocal_fmap (s s' : SocketStore) (f : PlayerData.t → PlayerData.t)
    (players : list PlayerData.t) :
  localPlayerId s' = localPlayerId s →
  (∀ p, PlayerData.id (f p) = PlayerData.id p) →
  find (isLocal s') (f <$> players) = f <$> find (isLocal s) players.
Proof.
  intros Hlocal Hid. unfold find. rewrite list_find_fmap.
  rewrite (list_find_ext _ (isLocal s)).
  - by destruct (list_find (isLocal s) players) as [[i p]|].
  - intros p. unfold isLocal. simpl. by rewrite Hlocal, Hid.
Qed.

Lemma getCurrentPlayer_Some s me :
  getCurrentPlayer None s = Some me →
  ∃ g players,
    game s = Some g ∧ Game.players g = Some players
    ∧ find (isLocal s) players = Some me.
Proof.
  unfold getCurrentPlayer, storePlayers.
  destruct (game s) as [g|]; [|done]. simpl.
  destruct (Game.players g) as [players|] eqn:Hps; [|done]. simpl.
  intros Hfind. by exists g, players.
Qed.

(** ** toggleReady *)

(** C4: with a game loaded and the local player seated, [toggleReady]
    returns without waiting for anything (the only effect on the socket
    is the request it sent), and when it returns the store's local player
    is the one from before with its ready flag negated. *)
Theorem toggleReady_flips_ready (gameId : string) (w : World)
    (me : PlayerData.t) :
  getCurrentPlayer None (store w) = Some me →
  ∃ w' me',
    exec (toggleReady gameId) w = (w', Finished ())
    ∧ trace w' = trace w ++ [Sent (ToggleReady gameId)]
    ∧ getCurrentPlayer None (store w') = Some me'
    ∧ PlayerData.ready me' = negb (PlayerData.ready me)
    ∧ me' = PlayerData.withReady (negb (PlayerData.ready me)) me.
Proof.
  intros (g & players & Hg & Hps & Hme)%getCurrentPlayer_Some.
  exists (exec (toggleReady gameId) w).1,
    (PlayerData.withReady (negb (PlayerData.ready me)) me).
  split_and!; [reflexivity..| |reflexivity|reflexivity].
  unfold getCurrentPlayer, storePlayers. simpl. rewrite Hg. simpl.
  rewrite Hps. simpl.
  rewrite (find_isLocal_fmap (store w)).
  - rewrite Hme. simpl. by rewrite decide_True by by eapply find_elem_of.
  - done.
  - intros p. by case_decide.
Qed.

Lemma toggleReady_flips_ready_witness :
  ∃ w' me',
    exec (toggleReady "g1") (mkWorld tableOfTwo []) = (w', Finished ())
    ∧ trace w' = [] ++ [Sent (ToggleReady "g1")]
    ∧ getCurrentPlayer None (store w') = Some me'
    ∧ PlayerData.ready me' = negb (PlayerData.ready bob)
    ∧ me' = PlayerData.withReady (negb (PlayerData.ready bob)) bob.
Proof.
  apply (toggleReady_flips_ready "g1" (mkWorld tableOfTwo []) bob).
  reflexivity.
Defined.

(** C10: [toggleReady] returns normally from every store, having sent its
    request and left the local player and the chats alone; from a store
    without a game it leaves a game whose only property is an empty
    player list, and with nobody recognised as the local player the
    player list is the one from before. *)
Theorem toggleReady_never_throws (gameId : string) (w : World) :
  (∃ w',
     exec (toggleReady gameId) w = (w', Finished ())
     ∧ trace w' = trace w ++ [Sent (ToggleReady gameId)]
     ∧ player (store w') = player (store w)
     ∧ chats (store w') = chats (store w))
  ∧ (game (store w) = None →
     game (store (exec (toggleReady gameId) w).1)
       = Some (Game.mk None None (Some []) None ∅))
  ∧ (getCurrentPlayer None (store w) = None →
     storePlayers (store (exec (toggleReady gameId) w).1)
       = Some (default [] (storePlayers (store w)))).
Proof.
  split_and!.
  - eexists. split; [reflexivity|]. by split_and!.
  - intros Hnone. simpl. by rewrite Hnone.
  - intros Hunseated. simpl. unfold storePlayers. simpl. f_equal.
    unfold getCurrentPlayer, storePlayers in Hunseated.
    destruct (game (store w)) as [g|]; [|done]. simpl in *.
    destruct (Game.players g) as [players|]; [|done]. simpl in *.
    apply find_None in Hunseated.
    induction Hunseated as [|p players Hp _ IH]; [done|].
    csimpl. rewrite decide_False by done. by f_equal.
Qed.

Lemma toggleReady_never_throws_witness :
  game (store (exec (toggleReady "g1") (mkWorld lobby [])).1)
    = Some (Game.mk None None (Some []) None ∅)
  ∧ storePlayers (store (exec (toggleReady "g1") (mkWorld watchedTable [])).1)
    = Some [ann; bob; cat; dan; eve].
Proof.
  split.
  - apply (toggleReady_never_throws "g1" (mkWorld lobby [])). reflexivity.
  - apply (toggleReady_never_throws "g1" (mkWorld watchedTable [])).
    reflexivity.
Defined.

(** ** toggleOnlineStatus *)

(** C7: [toggleOnlineStatus] sends its request and parks at the [await]
    with the store as it was.  If the request is rejected the function is
    rejected with the same error and the store stays as it is at that
    moment; only when the request resolves is the store written, and
    then the store's local player has status online. *)
Theorem toggleOnlineStatus_confirmed_then_applied (gameId : string)
    (w : World) :
  ∃ w0 k,
    exec (toggleOnlineStatus gameId) w = (w0, AwaitingResponse k)
    ∧ store w0 = store w
    ∧ trace w0 = trace w ++ [Sent (ChangePlayerStatus gameId "online")]
    ∧ (∀ e w1, resume k (Rejected e) w1 = (w1, Failed e))
    ∧ (∀ v w1, ∃ w2,
         resume k (Resolved v) w1 = (w2, Finished ())
         ∧ trace w2 = trace w1
         ∧ Forall (λ p, isLocal (store w1) p → PlayerData.status p = "online")
                  (default [] (storePlayers (store w2)))
         ∧ ∀ me, getCurrentPlayer None (store w1) = Some me →
                 getCurrentPlayer None (store w2)
                   = Some (PlayerData.withStatus "online" me)).
Proof.
  eexists _, _. split; [reflexivity|]. split_and!; [reflexivity..|].
  intros v w1. eexists. split; [reflexivity|]. split_and!; [reflexivity| |].
  - unfold storePlayers. simpl. apply Forall_fmap, Forall_forall.
    intros p _ Hp. simpl in *. by case_decide.
  - intros me (g & players & Hg & Hps & Hme)%getCurrentPlayer_Some.
    unfold getCurrentPlayer, storePlayers. simpl. rewrite Hg. simpl.
    rewrite Hps. simpl.
    rewrite (find_isLocal_fmap (store w1)).
    + rewrite Hme. simpl. by rewrite decide_True by by eapply find_elem_of.
    + done.
    + intros p. by case_decide.
Qed.

(** ** putCard *)

Section hand.
Implicit Types (hand : list CardData.t) (cardIds : list string).

Lemma find_card_Some hand cardId c :
  find (λ card, CardData.id card = cardId) hand = Some c →
  c ∈ hand ∧ CardData.id c = cardId.
Proof. apply (find_elem_of (λ card, CardData.id card = cardId)). Qed.

Lemma find_card_is_Some hand cardId :
  is_Some (find (λ card, CardData.id card = cardId) hand)
  ↔ cardId ∈ CardData.id <$> hand.
Proof.
  split.
  - intros [c [Hc <-]%find_card_Some]. by apply list_elem_of_fmap_2.
  - intros (c & -> & Hc)%list_elem_of_fmap.
    destruct (find _ hand) eqn:Hfind; [done|].
    apply find_None in Hfind.
    by destruct (proj1 (Forall_forall _ _) Hfind c Hc).
Qed.

Lemma unique_card_id hand c c' :
  NoDup (CardData.id <$> hand) →
  c ∈ hand → c' ∈ hand → CardData.id c = CardData.id c' → c = c'.
Proof.
  induction hand as [|d hand IH]; [by intros _ ?%elem_of_nil|].
  rewrite fmap_cons. intros [Hfresh Hnodup]%NoDup_cons.
  intros [->|Hc]%elem_of_cons [->|Hc']%elem_of_cons Hid; [done| | |by auto].
  - destruct Hfresh. rewrite Hid. by apply list_elem_of_fmap_2.
  - destruct Hfresh. rewrite <- Hid. by apply list_elem_of_fmap_2.
Qed.

Lemma collectCards_from me cardIds (acc : list CardData.t) :
  foldl (λ cards cardId,
           match find (λ card, CardData.id card = cardId)
                      (PlayerData.handCards me) with
           | Some card => cards ++ [card]
           | None => cards
           end) acc cardIds =
    acc ++ omap (λ cardId, find (λ card, CardData.id card = cardId)
                                (PlayerData.handCards me))
                cardIds.
Proof.
  revert acc. induction cardIds as [|cardId cardIds IH]; intros acc; csimpl.
  - by rewrite (right_id_L [] (++)).
  - rewrite IH. destruct (find _ _); [|done].
    by rewrite <- (assoc_L (++)).
Qed.

(** The loop pushes in the order of the requested ids. *)
Lemma collectCards_omap me cardIds :
  collectCards me cardIds =
    omap (λ cardId, find (λ card, CardData.id card = cardId)
                         (PlayerData.handCards me))
         cardIds.
Proof. apply (collectCards_from me cardIds []). Qed.

Lemma collectCards_ids me cardIds :
  CardData.id <$> collectCards me cardIds =
    filter (λ cardId, cardId ∈ CardData.id <$> PlayerData.handCards me)
           cardIds.
Proof.
  rewrite collectCards_omap.
  induction cardIds as [|cardId cardIds IH]; [done|]. csimpl.
  destruct (find _ _) as [c|] eqn:Hfind.
  - rewrite filter_cons_True.
    + csimpl. rewrite IH. f_equal. by apply find_card_Some in Hfind as [_ ?].
    + apply find_card_is_Some. by rewrite Hfind.
  - rewrite filter_cons_False; [done|].
    intros [c Hc]%find_card_is_Some. congruence.
Qed.

Lemma collectCards_elem_of me cardIds c :
  c ∈ collectCards me cardIds →
  c ∈ PlayerData.handCards me ∧ CardData.id c ∈ cardIds.
Proof.
  rewrite collectCards_omap.
  intros (cardId & Hin & [Hc <-]%find_card_Some)%list_elem_of_omap. done.
Qed.

Lemma collectCards_elem_of_unique me cardIds c :
  NoDup (CardData.id <$> PlayerData.handCards me) →
  c ∈ collectCards me cardIds
  ↔ c ∈ PlayerData.handCards me ∧ CardData.id c ∈ cardIds.
Proof.
  intros Hnodup. split; [apply collectCards_elem_of|].
  intros [Hc Hid]. rewrite collectCards_omap. apply list_elem_of_omap.
  exists (CardData.id c). split; [done|].
  destruct (find _ _) as [c'|] eqn:Hfind.
  - apply find_card_Some in Hfind as [Hc' Hid']. f_equal.
    by apply (unique_card_id (PlayerData.handCards me)).
  - apply find_None in Hfind.
    by destruct (proj1 (Forall_forall _ _) Hfind c Hc).
Qed.

Lemma collectCards_NoDup me cardIds :
  NoDup cardIds → NoDup (collectCards me cardIds).
Proof.
  intros Hnodup. apply (NoDup_fmap_1 CardData.id).
  rewrite collectCards_ids. by apply NoDup_filter.
Qed.

Lemma filter_absent_ids hand cardIds :
  Forall (λ cardId, cardId ∉ CardData.id <$> hand) cardIds →
  filter (λ handCard, ¬ includes cardIds (CardData.id handCard)) hand = hand.
Proof.
  intros Habsent. induction hand as [|c hand IH]; [done|].
  rewrite filter_cons_True.
  - f_equal. apply IH. eapply Forall_impl; [done|].
    intros cardId Hnot Hin. apply Hnot. rewrite fmap_cons.
    apply elem_of_cons. by right.
  - unfold includes. intros Hc.
    eapply Forall_forall in Habsent; [|done].
    apply Habsent. rewrite fmap_cons. apply elem_of_cons. by left.
Qed.

(** With no id requested twice and no id twice in the hand, the cards
    that leave the hand are the collected ones, each once. *)
Lemma hand_conserved me cardIds :
  NoDup cardIds →
  NoDup (CardData.id <$> PlayerData.handCards me) →
  PlayerData.handCards (withoutCards cardIds me) ++ collectCards me cardIds
    ≡ₚ PlayerData.handCards me.
Proof.
  intros Hids Hhand. simpl.
  etrans; [|apply (filter_app_complement
                     (λ handCard, includes cardIds (CardData.id handCard)))].
  rewrite (comm (++)). f_equiv.
  apply NoDup_Permutation.
  - by apply collectCards_NoDup.
  - apply NoDup_filter. by eapply NoDup_fmap_1.
  - intros c. rewrite collectCards_elem_of_unique by done.
    rewrite list_elem_of_filter. unfold includes. tauto.
Qed.
End hand.

Lemma exec_putCard_seated gameId cardIds selectedColor w g players
    usedCards me :
  game (store w) = Some g →
  Game.players g = Some players →
  Game.usedCards g = Some usedCards →
  find (isLocal (store w)) players = Some me →
  exec (putCard gameId cardIds selectedColor) w =
    (mkWorld
       (setGameData
          (Game.withPlayersAndUsedCards
             (Some ((λ player,
                       if decide (isLocal (store w) player)
                       then withoutCards cardIds player else player)
                      <$> players))
             (collectCards me cardIds ++ usedCards) g)
          (store w))
       (trace w ++ [Sent (PutCard gameId cardIds selectedColor)]),
     Finished ()).
Proof.
  intros Hg Hps Hused Hme. simpl. unfold storePlayers. simpl.
  rewrite Hg. simpl. rewrite Hps. simpl. rewrite Hme. simpl.
  by rewrite Hused.
Qed.

Lemma exec_putCard_unseated gameId cardIds selectedColor w :
  getCurrentPlayer None (store w) = None →
  exec (putCard gameId cardIds selectedColor) w =
    (mkWorld (store w)
       (trace w ++ [Sent (PutCard gameId cardIds selectedColor)]),
     Finished ()).
Proof.
  unfold getCurrentPlayer. intros Hnone. simpl. by rewrite Hnone.
Qed.

Lemma getCurrentPlayer_after_putCard cardIds w g players usedCards' me :
  game (store w) = Some g →
  Game.players g = Some players →
  find (isLocal (store w)) players = Some me →
  getCurrentPlayer None
    (setGameData
       (Game.withPlayersAndUsedCards
          (Some ((λ player,
                    if decide (isLocal (store w) player)
                    then withoutCards cardIds player else player)
                   <$> players))
          usedCards' g)
       (store w))
    = Some (withoutCards cardIds me).
Proof.
  intros Hg Hps Hme. unfold getCurrentPlayer, storePlayers. simpl.
  rewrite (find_isLocal_fmap (store w)).
  - rewrite Hme. simpl. by rewrite decide_True by by eapply find_elem_of.
  - done.
  - intros p. by case_decide.
Qed.

(** C1 as the code has it: with the local player seated, no id twice in
    [cardIds] and no id twice in the hand, [putCard] sends its request and
    replaces the store's game so that the hand keeps the cards whose ids
    are not in [cardIds], the cards whose ids are in [cardIds] are put in
    front of [usedCards], and no card is lost or gained; an id that is not
    in the hand moves nothing and raises nothing.  With the local player
    not found the store is not written and the request is still sent. *)
Theorem putCard_moves_cards (gameId : string) (cardIds : list string)
    (selectedColor : string) (w : World) :
  (∀ g usedCards me,
     game (store w) = Some g →
     Game.usedCards g = Some usedCards →
     getCurrentPlayer None (store w) = Some me →
     NoDup cardIds →
     NoDup (CardData.id <$> PlayerData.handCards me) →
     ∃ w' g' me' moved,
       exec (putCard gameId cardIds selectedColor) w = (w', Finished ())
       ∧ trace w' = trace w ++ [Sent (PutCard gameId cardIds selectedColor)]
       ∧ game (store w') = Some g'
       ∧ getCurrentPlayer None (store w') = Some me'
       ∧ me' = PlayerData.withHandCards (PlayerData.handCards me') me
       ∧ Game.usedCards g' = Some (moved ++ usedCards)
       ∧ PlayerData.handCards me' ++ moved ≡ₚ PlayerData.handCards me
       ∧ (∀ c, c ∈ moved ↔
               c ∈ PlayerData.handCards me ∧ CardData.id c ∈ cardIds)
       ∧ (∀ c, c ∈ PlayerData.handCards me' ↔
               c ∈ PlayerData.handCards me ∧ CardData.id c ∉ cardIds)
       ∧ (∀ cardId, cardId ∈ cardIds →
            cardId ∉ CardData.id <$> PlayerData.handCards me →
            cardId ∉ CardData.id <$> moved)
       ∧ (Forall (λ cardId,
                    cardId ∉ CardData.id <$> PlayerData.handCards me)
                 cardIds →
          Game.usedCards g' = Some usedCards
          ∧ PlayerData.handCards me' = PlayerData.handCards me))
  ∧ (getCurrentPlayer None (store w) = None →
     exec (putCard gameId cardIds selectedColor) w =
       (mkWorld (store w)
          (trace w ++ [Sent (PutCard gameId cardIds selectedColor)]),
        Finished ())).
Proof.
  split; [|apply exec_putCard_unseated].
  intros g usedCards me Hg Hused Hseated Hids Hhand.
  pose proof Hseated as (g0 & players & Hg0 & Hps & Hme)%getCurrentPlayer_Some.
  assert (g0 = g) as -> by congruence.
  eexists _, _, (withoutCards cardIds me), (collectCards me cardIds).
  split; [by apply exec_putCard_seated|].
  split_and!.
  - reflexivity.
  - reflexivity.
  - simpl. by eapply getCurrentPlayer_after_putCard.
  - reflexivity.
  - reflexivity.
  - by apply hand_conserved.
  - intros c. by apply collectCards_elem_of_unique.
  - intros c. simpl. rewrite list_elem_of_filter. unfold includes. tauto.
  - intros cardId _ Habsent. rewrite collectCards_ids.
    rewrite list_elem_of_filter. tauto.
  - intros Habsent.
    assert (collectCards me cardIds = []) as Hnone.
    { apply (fmap_nil_inv CardData.id). rewrite collectCards_ids.
      induction Habsent as [|cardId rest ? _ IH]; [done|].
      apply NoDup_cons in Hids as [_ Hids].
      rewrite filter_cons_False by done. auto. }
    rewrite Hnone. split; [done|]. simpl. by apply filter_absent_ids.
Qed.

Lemma putCard_moves_cards_witness :
  (∃ w' g' me' moved,
     exec (putCard "g1" ["c2"; "c7"] "blue") (mkWorld tableOfTwo [])
       = (w', Finished ())
     ∧ game (store w') = Some g'
     ∧ getCurrentPlayer None (store w') = Some me'
     ∧ Game.usedCards g' = Some (moved ++ [greenOne])
     ∧ PlayerData.handCards me' ++ moved ≡ₚ [redFive; blueSeven])
  ∧ exec (putCard "g1" ["c2"] "blue") (mkWorld watchedTable [])
    = (mkWorld watchedTable [Sent (PutCard "g1" ["c2"] "blue")], Finished ()).
Proof.
  split.
  - destruct (proj1 (putCard_moves_cards "g1" ["c2"; "c7"] "blue"
                       (mkWorld tableOfTwo []))
                (gameOf "playing" 1 [ann; bob]) [greenOne] bob)
      as (w' & g' & me' & moved & Hexec & _ & Hg' & Hme' & _ & Hused
          & Hperm & _).
    + reflexivity.
    + reflexivity.
    + reflexivity.
    + apply (bool_decide_unpack _). vm_compute. exact I.
    + apply (bool_decide_unpack _). vm_compute. exact I.
    + by exists w', g', me', moved.
  - apply (proj2 (putCard_moves_cards "g1" ["c2"] "blue"
                    (mkWorld watchedTable []))).
    reflexivity.
Defined.

(** C1 fails as stated: asking twice for the same card takes it out of
    the hand once and puts it in front of [usedCards] twice, so the cards
    in front of [usedCards] are not the cards that left the hand. *)
Lemma putCard_repeated_id_repeats_card :
  ∃ w' g' me',
    exec (putCard "g1" ["c1"; "c1"] "red") (mkWorld tableOfTwo [])
      = (w', Finished ())
    ∧ game (store w') = Some g'
    ∧ getCurrentPlayer None (store w') = Some me'
    ∧ PlayerData.handCards me' = [blueSeven]
    ∧ Game.usedCards g' = Some [redFive; redFive; greenOne]
    ∧ ¬ ∃ moved,
          Game.usedCards g' = Some (moved ++ [greenOne])
          ∧ PlayerData.handCards me' ++ moved ≡ₚ PlayerData.handCards bob.
Proof.
  eexists _, _, _. split; [reflexivity|].
  split; [reflexivity|]. split; [reflexivity|].
  split; [reflexivity|]. split; [reflexivity|].
  intros (moved & Hused & Hperm).
  simpl in Hused. injection Hused as Hused.
  apply (f_equal length) in Hused. rewrite length_app in Hused.
  apply Permutation_length in Hperm. rewrite length_app in Hperm.
  simpl in Hused, Hperm. lia.
Qed.

(** C9: the cards [putCard] puts in front of [usedCards] come in the
    order in which their ids stand in [cardIds], one for each requested
    id that is in the hand, whatever their order in the hand; behind them
    is the previous [usedCards], unchanged. *)
Theorem putCard_prepends_in_request_order (gameId : string)
    (cardIds : list string) (selectedColor : string) (w : World)
    (g : Game.t) (usedCards : list CardData.t) (me : PlayerData.t) :
  game (store w) = Some g →
  Game.usedCards g = Some usedCards →
  getCurrentPlayer None (store w) = Some me →
  ∃ w' g' moved,
    exec (putCard gameId cardIds selectedColor) w = (w', Finished ())
    ∧ game (store w') = Some g'
    ∧ Game.usedCards g' = Some (moved ++ usedCards)
    ∧ CardData.id <$> moved =
        filter (λ cardId, cardId ∈ CardData.id <$> PlayerData.handCards me)
               cardIds
    ∧ Forall (λ c, c ∈ PlayerData.handCards me) moved.
Proof.
  intros Hg Hused Hseated.
  pose proof Hseated as (g0 & players & Hg0 & Hps & Hme)%getCurrentPlayer_Some.
  assert (g0 = g) as -> by congruence.
  eexists _, _, (collectCards me cardIds).
  split; [by apply exec_putCard_seated|].
  split_and!.
  - reflexivity.
  - reflexivity.
  - apply collectCards_ids.
  - apply Forall_forall. intros c Hc.
    by apply collectCards_elem_of in Hc as [? _].
Qed.

Lemma putCard_prepends_in_request_order_witness :
  ∃ w' g' moved,
    exec (putCard "g1" ["c2"; "c7"; "c1"] "blue") (mkWorld tableOfTwo [])
      = (w', Finished ())
    ∧ game (store w') = Some g'
    ∧ Game.usedCards g' = Some (moved ++ [greenOne])
    ∧ CardData.id <$> moved =
        filter (λ cardId, cardId ∈ CardData.id <$> PlayerData.handCards bob)
               ["c2"; "c7"; "c1"]
    ∧ Forall (λ c, c ∈ PlayerData.handCards bob) moved.
Proof.
  apply (putCard_prepends_in_request_order "g1" ["c2"; "c7"; "c1"] "blue"
           (mkWorld tableOfTwo []) (gameOf "playing" 1 [ann; bob])
           [greenOne] bob); reflexivity.
Defined.

(** On the sample table the request order [c2, c1] wins over the hand
    order [c1, c2]. *)
Example putCard_request_order_not_hand_order :
  (game (store (exec (putCard "g1" ["c2"; "c7"; "c1"] "blue")
                     (mkWorld tableOfTwo [])).1) ≫= Game.usedCards)
    = Some [blueSeven; redFive; greenOne].
Proof. reflexivity. Qed.

(** The two-player table of the specification's example: the local
    player "p2" plays the only card of the hand. *)
Example putCard_last_card :
  let w' := (exec (putCard "g1" ["c1"] "red") (mkWorld lastCardTable [])).1 in
  (PlayerData.handCards <$> getCurrentPlayer None (store w')) = Some []
  ∧ (game (store w') ≫= Game.usedCards) = Some [redFive; greenOne]
  ∧ trace w' = [Sent (PutCard "g1" ["c1"] "red")].
Proof. by split_and!. Qed.

(** X10: [putCard] for a seated local player on a game without
    [usedCards] throws a [TypeError] after sending its request and before
    writing the store: the request is out, the store is as it was. *)
Lemma putCard_without_usedCards gameId cardIds selectedColor w g me :
  game (store w) = Some g →
  Game.usedCards g = None →
  getCurrentPlayer None (store w) = Some me →
  exec (putCard gameId cardIds selectedColor) w =
    (mkWorld (store w)
       (trace w ++ [Sent (PutCard gameId cardIds selectedColor)]),
     Failed TypeError).
Proof.
  intros Hg Hused Hme. unfold getCurrentPlayer in Hme. simpl.
  rewrite Hme. simpl. rewrite Hg. simpl. by rewrite Hused.
Qed.

(** ** Frame of the optimistic mutations *)

Lemma Forall2_fmap_self {A} (R : A → A → Prop) (f : A → A) (l : list A) :
  (∀ x, R x (f x)) → Forall2 R l (f <$> l).
Proof. intros HR. induction l; csimpl; by constructor. Qed.

Lemma OptimisticFrame_refl touched s :
  (∀ p, isLocal s p → touched p p) → OptimisticFrame touched s s.
Proof.
  intros Htouched. split; try done.
  destruct (storePlayers s) as [players|]; constructor.
  rewrite <- (list_fmap_id players) at 2.
  apply Forall2_fmap_self. intros p. simpl. case_decide; auto.
Qed.

Lemma OptimisticFrame_players touched s (f : PlayerData.t → PlayerData.t)
    (build : list PlayerData.t → Game.t → Game.t) :
  (∀ ps g, Game.status (build ps g) = Game.status g) →
  (∀ ps g, Game.currentPlayerIndex (build ps g) = Game.currentPlayerIndex g) →
  (∀ ps g, Game.rest (build ps g) = Game.rest g) →
  (∀ ps g, Game.players (build ps g) = Some ps) →
  (∀ p, touched p (f p)) →
  is_Some (storePlayers s) →
  OptimisticFrame touched s
    (setGameData
       (build ((λ player, if decide (isLocal s player) then f player
                          else player)
                 <$> default [] (Game.players (Game.spread (game s))))
              (Game.spread (game s)))
       s).
Proof.
  intros Hstatus Hturn Hrest Hplayers Htouched [players Hps].
  unfold storePlayers in Hps.
  destruct (game s) as [g|] eqn:Hg; [|done]. simpl in Hps.
  split; simpl; rewrite ?Hstatus, ?Hturn, ?Hrest, ?Hg; try done.
  unfold storePlayers. simpl. rewrite Hplayers, Hg. simpl. rewrite Hps.
  constructor. simpl.
  apply Forall2_fmap_self. intros p. simpl. case_decide; auto.
Qed.

Lemma withHandCards_same p :
  ∃ cards, p = PlayerData.withHandCards cards p.
Proof. exists (PlayerData.handCards p). by destruct p. Qed.

Lemma withStatus_same p :
  ∃ status, p = PlayerData.withStatus status p.
Proof. exists (PlayerData.status p). by destruct p. Qed.

(** C6 as the code has it: on a store whose game has a player list, each
    optimistic mutation keeps the game, its status and turn index, every
    property other than the player list and [usedCards], the store's
    local player, the chats and the entry of every player other than the
    local one as they were.  [toggleReady] changes the local entry in its
    ready flag only and a confirmed [toggleOnlineStatus] in its status
    only, and neither changes [usedCards]; [putCard] changes the local
    entry in its hand only, and does so on every store; a rejected
    [toggleOnlineStatus] changes nothing.  On a store without a game, or
    whose game has no player list, [toggleReady] and a confirmed
    [toggleOnlineStatus] write a game that is the old one (the empty
    object when there was none) with an empty player list. *)
Theorem optimistic_mutations_frame (gameId : string)
    (cardIds : list string) (selectedColor : string) (w : World) :
  (is_Some (storePlayers (store w)) →
     OptimisticFrame
       (λ p p', ∃ ready, p' = PlayerData.withReady ready p)
       (store w) (store (exec (toggleReady gameId) w).1)
     ∧ game (store (exec (toggleReady gameId) w).1) ≫= Game.usedCards
       = game (store w) ≫= Game.usedCards)
  ∧ (storePlayers (store w) = None →
     store (exec (toggleReady gameId) w).1 =
       setGameData (Game.withPlayers [] (Game.spread (game (store w))))
                   (store w))
  ∧ OptimisticFrame
      (λ p p', ∃ cards, p' = PlayerData.withHandCards cards p)
      (store w) (store (exec (putCard gameId cardIds selectedColor) w).1)
  ∧ ∃ k,
      exec (toggleOnlineStatus gameId) w =
        (mkWorld (store w)
           (trace w ++ [Sent (ChangePlayerStatus gameId "online")]),
         AwaitingResponse k)
      ∧ (∀ e w1, store (resume k (Rejected e) w1).1 = store w1)
      ∧ (∀ v w1,
           is_Some (storePlayers (store w1)) →
           OptimisticFrame
             (λ p p', ∃ status, p' = PlayerData.withStatus status p)
             (store w1) (store (resume k (Resolved v) w1).1)
           ∧ game (store (resume k (Resolved v) w1).1) ≫= Game.usedCards
             = game (store w1) ≫= Game.usedCards)
      ∧ (∀ v w1,
           storePlayers (store w1) = None →
           store (resume k (Resolved v) w1).1 =
             setGameData
               (Game.withPlayers [] (Game.spread (game (store w1))))
               (store w1)).
Proof.
  assert (∀ s, storePlayers s = None →
               default [] (Game.players (Game.spread (game s))) = [])
    as Hnone.
  { intros s. unfold storePlayers. destruct (game s) as [g|]; [|done].
    simpl. by intros ->. }
  split_and!.
  - intros Hps. split.
    + apply (OptimisticFrame_players
               (λ p p', ∃ ready, p' = PlayerData.withReady ready p) (store w)
               (λ p, PlayerData.withReady (negb (PlayerData.ready p)) p)
               Game.withPlayers); try done.
      intros p. by eexists.
    + simpl. by destruct (game (store w)).
  - intros Hps. simpl. by rewrite Hnone.
  - simpl.
    destruct (storePlayers (store w) ≫= find (isLocal (store w)))
      as [me|] eqn:Hme; simpl;
      [|apply OptimisticFrame_refl; eauto using withHandCards_same].
    destruct (game (store w) ≫= Game.usedCards) as [usedCards|] eqn:Hused;
      simpl; [|apply OptimisticFrame_refl; eauto using withHandCards_same].
    destruct (game (store w)) as [g|] eqn:Hg; [|done].
    unfold storePlayers in *. rewrite Hg in *. simpl in *.
    destruct (Game.players g) as [players|] eqn:Hps; [|done]. simpl in *.
    split; simpl; rewrite ?Hg; try done.
    unfold storePlayers. rewrite Hg. simpl. rewrite Hps. constructor.
    apply Forall2_fmap_self. intros p. simpl.
    case_decide; [|done]. by eexists.
  - eexists. split; [reflexivity|]. split_and!.
    + done.
    + intros v w1 Hps. split.
      * apply (OptimisticFrame_players
                 (λ p p', ∃ status, p' = PlayerData.withStatus status p)
                 (store w1) (PlayerData.withStatus "online")
                 Game.withPlayers); try done.
        intros p. by eexists.
      * simpl. by destruct (game (store w1)).
    + intros v w1 Hps. simpl. by rewrite Hnone.
Qed.

Lemma optimistic_mutations_frame_witness :
  OptimisticFrame
    (λ p p', ∃ ready, p' = PlayerData.withReady ready p)
    tableOfTwo (store (exec (toggleReady "g1") (mkWorld tableOfTwo [])).1)
  ∧ store (exec (toggleReady "g1") (mkWorld lobby [])).1 =
      setGameData (Game.withPlayers [] Game.empty) lobby.
Proof.
  pose proof (optimistic_mutations_frame "g1" [] "red" (mkWorld tableOfTwo []))
    as (Hseated & _).
  pose proof (optimistic_mutations_frame "g1" [] "red" (mkWorld lobby []))
    as (_ & Hlobby & _).
  split.
  - apply Hseated. by eexists.
  - apply Hlobby. reflexivity.
Defined.

(** C6 fails as stated: in a store without a game [toggleReady] has no
    ready flag to flip, and yet it writes a game with an empty player
    list, which [getOtherPlayers] shows as seven seats where it showed
    none. *)
Lemma toggleReady_without_game_writes_one :
  game lobby = None
  ∧ game (store (exec (toggleReady "g1") (mkWorld lobby [])).1)
    = Some (Game.mk None None (Some []) None ∅)
  ∧ getOtherPlayers lobby = []
  ∧ getOtherPlayers (store (exec (toggleReady "g1") (mkWorld lobby [])).1)
    = [NoPlayer; EmptyObject; NoPlayer; EmptyObject;
       NoPlayer; EmptyObject; NoPlayer]
  ∧ ¬ OptimisticFrame
        (λ p p', ∃ ready, p' = PlayerData.withReady ready p)
        lobby (store (exec (toggleReady "g1") (mkWorld lobby [])).1).
Proof.
  split_and!; [reflexivity..|].
  intros [Hgame _ _ _ _ _ _]. simpl in Hgame.
  by destruct (proj1 Hgame (mk_is_Some _ _ eq_refl)).
Qed.

(** ** Event subscribers *)

(** C8 as the code has it: the "GameStarted" and "NewMessage" subscribers
    write the store first and call the caller's function after, once for
    each event of their name and never for another event; the call is
    logged with the store the callback can read, which is the store after
    the write.  The "reconnect" subscriber asks for the player data and
    parks with the store untouched and no call made; when [getPlayerData]
    resolves it writes the player it returned and then calls the caller's
    function once, and when [getPlayerData] is rejected it writes nothing
    and calls nothing. *)
Theorem subscribers_write_then_call (fn : Callback) (w : World) :
  (∀ g, ∃ w',
     deliver (GameStarted g) (onGameStart fn) w = (w', [Finished ()])
     ∧ store w' = setGameData g (store w)
     ∧ game (store w') = Some g
     ∧ trace w' = trace w ++ [Called fn NoArgs (store w')])
  ∧ (∀ chatId message, ∃ w' chat,
       deliver (NewMessage chatId message) (onNewChatMessage (Some fn)) w
         = (w', [Finished ()])
       ∧ store w' = addChatMessage chatId message (store w)
       ∧ chats (store w') !! chatId = Some chat
       ∧ Chat.messages chat =
           from_option Chat.messages [] (chats (store w) !! chatId)
           ++ [message]
       ∧ trace w' = trace w ++ [Called fn NoArgs (store w')])
  ∧ (∃ w0 k,
       deliver Reconnect (onReconnect fn) w = (w0, [AwaitingPlayer k])
       ∧ store w0 = store w
       ∧ trace w0 = trace w ++ [AskedPlayerData]
       ∧ (∀ playerData w1, ∃ w2,
            resume k (Resolved playerData) w1 = (w2, Finished ())
            ∧ store w2 = setPlayerData playerData (store w1)
            ∧ player (store w2) = Some playerData
            ∧ trace w2 = trace w1 ++ [Called fn NoArgs (store w2)])
       ∧ (∀ e, resume k (Rejected e) w0 =
                 (mkWorld (store w) (trace w ++ [AskedPlayerData]), Failed e))
       ∧ (∀ e w1, resume k (Rejected e) w1 = (w1, Failed e)))
  ∧ (∀ ev,
       (if ev is GameStarted _ then True
        else deliver ev (onGameStart fn) w = (w, []))
       ∧ (if ev is NewMessage _ _ then True
          else deliver ev (onNewChatMessage (Some fn)) w = (w, []))
       ∧ (if ev is Reconnect then True
          else deliver ev (onReconnect fn) w = (w, []))).
Proof.
  split_and!.
  - intros g. eexists. split_and!; reflexivity.
  - intros chatId message.
    exists (exec (writeStore (addChatMessage chatId message);; call fn NoArgs)
                 w).1,
      (Chat.mk chatId
         (from_option Chat.messages [] (chats (store w) !! chatId)
          ++ [message])).
    split_and!; try reflexivity.
    simpl. by rewrite lookup_insert_eq.
  - eexists _, _. split_and!; try reflexivity.
    intros playerData w1. eexists. split_and!; reflexivity.
  - intros ev. destruct ev; split_and!; done.
Qed.

(** C8 fails as stated: a "reconnect" event whose [getPlayerData] is
    rejected is handled without any call of the callback; all the event
    leaves behind is the request for the player data, and the store's
    local player is the old one. *)
Lemma onReconnect_rejected_calls_nothing :
  ∃ w0 k,
    deliver Reconnect (onReconnect "onReconnected") (mkWorld tableOfTwo [])
      = (w0, [AwaitingPlayer k])
    ∧ resume k (Rejected (TransportError "timeout")) w0
      = (mkWorld tableOfTwo [AskedPlayerData],
         Failed (TransportError "timeout"))
    ∧ Forall (λ effect, effect = AskedPlayerData)
             (trace (resume k (Rejected (TransportError "timeout")) w0).1)
    ∧ player (store (resume k (Rejected (TransportError "timeout")) w0).1)
      = Some bob.
Proof.
  eexists _, _. split; [reflexivity|]. split_and!; try reflexivity.
  simpl. by repeat constructor.
Qed.

(** A "NewMessage" subscriber registered without a callback still appends
    the message, and calls nothing. *)
Lemma onNewChatMessage_without_callback (w : World) chatId message :
  deliver (NewMessage chatId message) (onNewChatMessage None) w
    = (mkWorld (addChatMessage chatId message (store w)) (trace w),
       [Finished ()]).
Proof. reflexivity. Qed.

(** X15: a "reconnect" event whose [getPlayerData] is rejected leaves the
    store as it was and calls nothing: from the event to the rejection
    the handler's only effect is the request for the player data, the
    handler is the only one run, and it ends rejected with that error. *)
Lemma onReconnect_rejected (fn : Callback) (w : World) (e : Error) :
  ∃ w0 k,
    deliver Reconnect (onReconnect fn) w = (w0, [AwaitingPlayer k])
    ∧ store w0 = store w
    ∧ trace w0 = trace w ++ [AskedPlayerData]
    ∧ resume k (Rejected e) w0 =
        (mkWorld (store w) (trace w ++ [AskedPlayerData]), Failed e)
    ∧ Forall (λ effect, ∀ f args seen, effect ≠ Called f args seen)
             (drop (length (trace w)) (trace (resume k (Rejected e) w0).1)).
Proof.
  eexists _, _. split; [reflexivity|]. split_and!; try reflexivity.
  simpl. rewrite drop_app_length. by repeat constructor.
Qed.

(** * Further properties of the hook *)

(** ** View derivation *)

(** X1: [getCurrentPlayer] searches the list it is given, and the store's
    players only when it is given none (an empty list given is searched,
    and finds nobody).  What it returns is the first entry of that list
    whose id is the store's local id; it returns [undefined] exactly when
    the list is missing or has no such entry, in particular whenever the
    store has no local player. *)
Theorem getCurrentPlayer_spec (players_ : option (list PlayerData.t))
    (s : SocketStore) :
  let searched :=
    match players_ with Some ps => Some ps | None => storePlayers s end in
  (∀ p, getCurrentPlayer players_ s = Some p ↔
        ∃ before after,
          searched = Some (before ++ p :: after)
          ∧ localPlayerId s = Some (PlayerData.id p)
          ∧ Forall (λ q, localPlayerId s ≠ Some (PlayerData.id q)) before)
  ∧ (getCurrentPlayer players_ s = None ↔
       ∀ players, searched = Some players →
         Forall (λ q, localPlayerId s ≠ Some (PlayerData.id q)) players)
  ∧ (player s = None → getCurrentPlayer players_ s = None).
Proof.
  intros searched. unfold getCurrentPlayer. fold searched.
  assert (∀ p players,
            find (isLocal s) players = Some p ↔
            ∃ before after,
              players = before ++ p :: after
              ∧ localPlayerId s = Some (PlayerData.id p)
              ∧ Forall (λ q, localPlayerId s ≠ Some (PlayerData.id q)) before)
    as Hfind.
  { intros p players. split.
    - intros (before & after & -> & Hbefore & Hp)%find_Some_split.
      by exists before, after.
    - intros (before & after & -> & Hp & Hbefore).
      unfold find. by rewrite list_find_first. }
  split_and!.
  - intros p. destruct searched as [players|]; simpl.
    + rewrite Hfind. split.
      * intros (before & after & -> & ?). by exists before, after.
      * intros (before & after & [= ->] & ?). by exists before, after.
    + split; [done|]. by intros (? & ? & ? & _).
  - destruct searched as [players|]; simpl.
    + rewrite find_None. split.
      * by intros Hnone ? [= <-].
      * intros Hnone. by apply Hnone.
    + split; [|done]. by intros _ ? ?.
  - intros Hnobody. destruct searched as [players|]; simpl; [|done].
    apply find_None, Forall_forall. intros q _.
    unfold isLocal, localPlayerId. by rewrite Hnobody.
Qed.

(** X2: [getCurrentRoundPlayer] returns a player exactly when the store
    has a game with a turn index and a player list and the index lies
    within the list, and then it is the player at that index; a negative
    index or one past the end gives [undefined]. *)
Theorem getCurrentRoundPlayer_spec (s : SocketStore) (p : PlayerData.t) :
  getCurrentRoundPlayer s = Some p ↔
  ∃ g i players,
    game s = Some g
    ∧ Game.currentPlayerIndex g = Some i
    ∧ Game.players g = Some players
    ∧ 0 ≤ i < Z.of_nat (length players)
    ∧ players !! Z.to_nat i = Some p.
Proof.
  unfold getCurrentRoundPlayer, storePlayers, index. split.
  - destruct (game s) as [g|]; [|done]. simpl.
    destruct (Game.currentPlayerIndex g) as [i|] eqn:Hi; [|done].
    destruct (Game.players g) as [players|] eqn:Hps; [|done].
    case_decide; [|done]. intros Hp. exists g, i, players.
    split_and!; try done.
    apply lookup_lt_Some in Hp. lia.
  - intros (g & i & players & -> & Hi & Hps & [Hpos _] & Hp). simpl.
    rewrite Hi, Hps. by rewrite decide_True.
Qed.

(** X3: once the store's game has ended, the winner is whoever
    [getCurrentRoundPlayer] returns, and [getWinner] is never [null]: with
    the turn index outside the player list (or missing) it returns
    [undefined], although its type says player or [null]. *)
Theorem getWinner_ended_is_round_player (s : SocketStore) :
  game s ≫= Game.status = Some "ended" →
  getWinner None s =
    match getCurrentRoundPlayer s with
    | Some p => Value p
    | None => Undefined
    end
  ∧ getWinner None s ≠ Null.
Proof.
  intros Hended. unfold getWinner, getCurrentRoundPlayer, storePlayers.
  rewrite decide_True by done.
  destruct (game s ≫= Game.currentPlayerIndex) as [i|];
    destruct (game s ≫= Game.players) as [players|]; try done.
  by destruct (index players i).
Qed.

Lemma getWinner_ended_is_round_player_witness :
  getWinner None finishedTable =
    match getCurrentRoundPlayer finishedTable with
    | Some p => Value p
    | None => Undefined
    end
  ∧ getWinner None finishedTable ≠ Null.
Proof. apply getWinner_ended_is_round_player. reflexivity. Defined.

(** X4: with the local player seated, the rotation loses and repeats
    nobody: the local player together with the rotated players are the
    seated players, each as often as seated. *)
Theorem rotatedPlayers_permutation (s : SocketStore)
    (players : list PlayerData.t) (me : PlayerData.t) :
  storePlayers s = Some players →
  getCurrentPlayer None s = Some me →
  me :: rotatedPlayers s ≡ₚ players.
Proof.
  intros Hps Hme. unfold getCurrentPlayer in Hme. rewrite Hps in Hme.
  simpl in Hme.
  apply find_Some_split in Hme as (before & after & -> & Hbefore & Hme).
  rewrite (rotatedPlayers_seated s before me after) by done.
  rewrite (comm (++) after). by rewrite Permutation_middle.
Qed.

Lemma rotatedPlayers_permutation_witness :
  bob :: rotatedPlayers tableOfFive ≡ₚ [ann; bob; cat; dan; eve].
Proof.
  apply (rotatedPlayers_permutation tableOfFive [ann; bob; cat; dan; eve] bob);
    reflexivity.
Defined.

Lemma rotatedPlayers_length_le s players :
  storePlayers s = Some players →
  (length (rotatedPlayers s) ≤ length players)%nat.
Proof.
  intros Hps. rewrite (rotatedPlayers_length s players Hps).
  case_decide; lia.
Qed.

Lemma padded_opponents (others : list PlayerData.t) (p : PlayerData.t) :
  (length others ≤ 4)%nat →
  Opponent p ∈ [ seatAt others 0; EmptyObject;
                 seatAt others 1; EmptyObject;
                 seatAt others 2; EmptyObject;
                 seatAt others 3 ]
  ↔ p ∈ others.
Proof.
  intros Hlen.
  destruct others as [|a [|b [|c [|d [|e others]]]]];
    simpl in Hlen; [..|lia]; unfold seatAt; simpl;
    rewrite !elem_of_cons, !elem_of_nil;
    (split; [intros Hin; repeat destruct Hin as [Hin|Hin]; simplify_eq; auto
            |intros Hin; repeat destruct Hin as [Hin|Hin]; simplify_eq;
             auto 10]).
Qed.

Lemma getOtherPlayers_elem_of (s : SocketStore) (p : PlayerData.t) :
  Opponent p ∈ getOtherPlayers s ↔ p ∈ rotatedPlayers s.
Proof.
  assert (Opponent p ∈ Opponent <$> rotatedPlayers s ↔ p ∈ rotatedPlayers s)
    as Hraw.
  { rewrite list_elem_of_fmap. split; [|by eauto].
    by intros (q & [= ->] & ?). }
  unfold getOtherPlayers.
  destruct (storePlayers s) as [players|] eqn:Hps; [|done].
  case_decide as Hcount; [|done].
  apply padded_opponents.
  pose proof (rotatedPlayers_length_le s players Hps). lia.
Qed.

(** X5: the layout padding drops no opponent and invents none: for any
    store, the players shown in the result of [getOtherPlayers] are the
    rotated players. *)
Theorem getOtherPlayers_opponents (s : SocketStore) (p : PlayerData.t) :
  Opponent p ∈ getOtherPlayers s ↔ p ∈ rotatedPlayers s.
Proof. apply getOtherPlayers_elem_of. Qed.

(** X6: with ids unique among the seated players, the local player is
    never shown among the other players, and everybody shown is seated. *)
Theorem getOtherPlayers_without_local (s : SocketStore)
    (players : list PlayerData.t) (me : PlayerData.t) :
  storePlayers s = Some players →
  NoDup (PlayerData.id <$> players) →
  getCurrentPlayer None s = Some me →
  ∀ p, Opponent p ∈ getOtherPlayers s →
       PlayerData.id p ≠ PlayerData.id me ∧ p ∈ players.
Proof.
  intros Hps Hnodup Hme p Hrot%getOtherPlayers_elem_of.
  unfold getCurrentPlayer in Hme. rewrite Hps in Hme. simpl in Hme.
  apply find_Some_split in Hme as (before & after & -> & Hbefore & Hme).
  rewrite (rotatedPlayers_seated s before me after) in Hrot by done.
  split.
  - intros Hid. rewrite fmap_app, fmap_cons in Hnodup.
    apply NoDup_app in Hnodup as (_ & Hdisjoint & Hnodup).
    apply NoDup_cons in Hnodup as [Hfresh _].
    apply elem_of_app in Hrot as [Hafter|Hin].
    + apply Hfresh. rewrite <- Hid. by apply list_elem_of_fmap_2.
    + apply (Hdisjoint (PlayerData.id p)).
      * by apply list_elem_of_fmap_2.
      * rewrite Hid. apply elem_of_cons. by left.
  - apply elem_of_app in Hrot as [Hafter|Hin].
    + apply elem_of_app. right. apply elem_of_cons. by right.
    + apply elem_of_app. by left.
Qed.

Lemma getOtherPlayers_without_local_witness :
  PlayerData.id ann ≠ PlayerData.id bob ∧ ann ∈ [ann; bob].
Proof.
  apply (getOtherPlayers_without_local tableOfTwo [ann; bob] bob).
  - reflexivity.
  - apply (bool_decide_unpack _). vm_compute. exact I.
  - reflexivity.
  - vm_compute. apply elem_of_cons. by left.
Defined.

(** ** Action dispatchers *)

Lemma withReady_twice (p : PlayerData.t) :
  PlayerData.withReady
    (negb (PlayerData.ready
             (PlayerData.withReady (negb (PlayerData.ready p)) p)))
    (PlayerData.withReady (negb (PlayerData.ready p)) p) = p.
Proof. destruct p as [? ? [] ? ?]; reflexivity. Qed.

(** X7: two calls of [toggleReady] in a row, on a store whose game has a
    player list, leave the store exactly as it was before the first. *)
Theorem toggleReady_twice (gameId gameId' : string) (w : World)
    (g : Game.t) (players : list PlayerData.t) :
  game (store w) = Some g →
  Game.players g = Some players →
  store (exec (toggleReady gameId') (exec (toggleReady gameId) w).1).1
    = store w.
Proof.
  destruct w as [[game0 player0 chats0] trace0]. simpl.
  intros -> Hps. destruct g as [status turn players0 usedCards rest].
  simpl in Hps. subst players0.
  unfold setGameData, Game.withPlayers. simpl. do 4 f_equal.
  rewrite <- list_fmap_compose.
  rewrite <- (list_fmap_id players) at 2.
  apply list_fmap_ext. intros _ p _. simpl.
  unfold isLocal, localPlayerId. simpl.
  destruct (decide (_ = Some (PlayerData.id p))) as [Hlocal|Hlocal]; simpl.
  - rewrite decide_True by done. apply withReady_twice.
  - by rewrite decide_False.
Qed.

Lemma toggleReady_twice_witness :
  store (exec (toggleReady "g1")
              (exec (toggleReady "g1") (mkWorld tableOfTwo [])).1).1
    = tableOfTwo.
Proof.
  apply (toggleReady_twice "g1" "g1" (mkWorld tableOfTwo [])
           (gameOf "playing" 1 [ann; bob]) [ann; bob]); reflexivity.
Defined.

(** X8: [toggleOnlineStatus] is idempotent on the store: a second
    confirmed call leaves the store as the first left it. *)
Theorem toggleOnlineStatus_twice (gameId gameId' : string)
    (v v' : Response) (w : World) :
  let w1 := (answered (toggleOnlineStatus gameId) (Resolved v) w).1 in
  store (answered (toggleOnlineStatus gameId') (Resolved v') w1).1 = store w1.
Proof.
  destruct w as [[game0 player0 chats0] trace0]. simpl.
  unfold setGameData, Game.withPlayers. simpl. do 4 f_equal.
  rewrite <- list_fmap_compose.
  apply list_fmap_ext. intros _ p _. simpl.
  unfold isLocal, localPlayerId. simpl.
  destruct (decide (_ = Some (PlayerData.id p))) as [Hlocal|Hlocal]; simpl;
    [by rewrite decide_True|by rewrite decide_False].
Qed.

Lemma filter_absent_twice (cardIds : list string) (hand : list CardData.t) :
  filter (λ handCard, ¬ includes cardIds (CardData.id handCard))
         (filter (λ handCard, ¬ includes cardIds (CardData.id handCard)) hand)
  = filter (λ handCard, ¬ includes cardIds (CardData.id handCard)) hand.
Proof.
  induction hand as [|c hand IH]; [done|].
  destruct (decide (¬ includes cardIds (CardData.id c))) as [Hc|Hc].
  - rewrite (filter_cons_True _ c hand) by done.
    rewrite filter_cons_True by done. by f_equal.
  - by rewrite (filter_cons_False _ c hand) by done.
Qed.

Lemma withoutCards_twice cardIds p :
  withoutCards cardIds (withoutCards cardIds p) = withoutCards cardIds p.
Proof.
  unfold withoutCards, PlayerData.withHandCards. simpl.
  by rewrite filter_absent_twice.
Qed.

Lemma filter_none_present (ids l : list string) :
  Forall (λ x, x ∉ ids) l → filter (λ x, x ∈ ids) l = [].
Proof.
  induction 1 as [|x l Hx _ IH]; [done|]. by rewrite filter_cons_False.
Qed.

(** Once the requested cards have left a hand, the loop of [putCard]
    finds none of them in it. *)
Lemma collectCards_withoutCards cardIds p :
  collectCards (withoutCards cardIds p) cardIds = [].
Proof.
  apply (fmap_nil_inv CardData.id). rewrite collectCards_ids.
  apply filter_none_present, Forall_forall. intros cardId Hin.
  intros (c & -> & Hc)%list_elem_of_fmap. simpl in Hc.
  by apply list_elem_of_filter in Hc as [Hnot _].
Qed.

Lemma exec_putCard_throws gameId cardIds selectedColor w g me :
  game (store w) = Some g →
  Game.usedCards g = None →
  getCurrentPlayer None (store w) = Some me →
  exec (putCard gameId cardIds selectedColor) w =
    (mkWorld (store w)
       (trace w ++ [Sent (PutCard gameId cardIds selectedColor)]),
     Failed TypeError).
Proof.
  intros Hg Hused Hme. unfold getCurrentPlayer in Hme. simpl.
  rewrite Hme. simpl. rewrite Hg. simpl. by rewrite Hused.
Qed.

(** X9: asking again for the same cards changes nothing: after one
    [putCard], a second one with the same ids leaves the store as the
    first left it (the cards are no longer in the hand, so none is put on
    [usedCards] a second time). *)
Theorem putCard_again_changes_nothing (gameId gameId' : string)
    (cardIds : list string) (selectedColor selectedColor' : string)
    (w : World) :
  let w1 := (exec (putCard gameId cardIds selectedColor) w).1 in
  store (exec (putCard gameId' cardIds selectedColor') w1).1 = store w1.
Proof.
  intros w1. subst w1.
  destruct (getCurrentPlayer None (store w)) as [me|] eqn:Hseated.
  - pose proof Hseated
      as (g & players & Hg & Hps & Hme)%getCurrentPlayer_Some.
    destruct (Game.usedCards g) as [usedCards|] eqn:Hused.
    + rewrite (exec_putCard_seated gameId cardIds selectedColor w g players
                 usedCards me) by done.
      cbn [fst].
      erewrite exec_putCard_seated; simpl; [|reflexivity..|].
      * unfold setGameData, Game.withPlayersAndUsedCards. simpl.
        rewrite collectCards_withoutCards. simpl. do 4 f_equal.
        rewrite <- list_fmap_compose. apply list_fmap_ext.
        intros _ p _. simpl. unfold isLocal, localPlayerId. simpl.
        destruct (decide (_ = Some (PlayerData.id p))) as [Hlocal|Hlocal];
          simpl; [|by rewrite decide_False].
        rewrite decide_True by done. apply withoutCards_twice.
      * rewrite (find_isLocal_fmap (store w)); [|done|].
        -- rewrite Hme. simpl.
           by rewrite decide_True by by eapply find_elem_of.
        -- intros p. by case_decide.
    + rewrite (exec_putCard_throws gameId cardIds selectedColor w g me)
        by done.
      cbn [fst].
      by rewrite (exec_putCard_throws gameId' cardIds selectedColor'
                    (mkWorld (store w) _) g me).
  - rewrite (exec_putCard_unseated gameId cardIds selectedColor w) by done.
    cbn [fst].
    by rewrite (exec_putCard_unseated gameId' cardIds selectedColor'
                  (mkWorld (store w) _)).
Qed.

Lemma putCard_without_usedCards_witness :
  exec (putCard "g1" ["c1"] "red") (mkWorld tableWithoutUsedCards []) =
    (mkWorld tableWithoutUsedCards [Sent (PutCard "g1" ["c1"] "red")],
     Failed TypeError).
Proof.
  apply (putCard_without_usedCards "g1" ["c1"] "red"
           (mkWorld tableWithoutUsedCards [])
           (Game.mk (Some "playing") (Some 1) (Some [ann; bob]) None ∅) bob);
    reflexivity.
Defined.

(** X11: [joinGame] writes nothing before the response.  When the request
    is rejected the store stays as it is and the caller gets the error;
    when it resolves with a game and a chat, the caller gets that game,
    the store's game is that game, the chat is stored under its id (and
    [getChat] finds it there unless the id is empty), and the local
    player is untouched. *)
Theorem joinGame_spec (gameId : string) (w : World) :
  ∃ w0 k,
    exec (joinGame gameId) w = (w0, AwaitingResponse k)
    ∧ store w0 = store w
    ∧ trace w0 = trace w ++ [Sent (JoinGame gameId)]
    ∧ (∀ e w1, resume k (Rejected e) w1 = (w1, Failed e))
    ∧ (∀ g chat w1, ∃ w2,
         resume k (Resolved (JoinGameEventResponse g chat)) w1
           = (w2, Finished g)
         ∧ game (store w2) = Some g
         ∧ chats (store w2) !! Chat.id chat = Some chat
         ∧ (Chat.id chat ≠ EmptyString →
            getChat (Some (Chat.id chat)) (store w2) = Some chat)
         ∧ (∀ other, other ≠ Chat.id chat →
              chats (store w2) !! other = chats (store w1) !! other)
         ∧ player (store w2) = player (store w1)
         ∧ trace w2 = trace w1).
Proof.
  eexists _, _. split; [reflexivity|]. split_and!; [reflexivity..|].
  intros g chat w1. eexists. split; [reflexivity|]. simpl.
  split_and!; try reflexivity.
  - by rewrite lookup_insert_eq.
  - intros Hid. unfold getChat.
    destruct (Chat.id chat) eqn:Hchat; [done|]. simpl.
    by rewrite lookup_insert_eq.
  - intros other Hother. by rewrite lookup_insert_ne.
Qed.

(** X12: [buyCard], [sendChatMessage] and [forceSelfDisconnect] send one
    request each and never write the store: it is untouched at the
    [await], and however the request settles the world stays as it is at
    that moment; a rejection is passed on to the caller. *)
Theorem awaited_requests_leave_store (gameId chatId message : string)
    (w : World) :
  let quiet (p : Prog unit) (r : Request) :=
    ∃ k, exec p w = (mkWorld (store w) (trace w ++ [Sent r]),
                     AwaitingResponse k)
         ∧ (∀ v w1, resume k (Resolved v) w1 = (w1, Finished ()))
         ∧ (∀ e w1, resume k (Rejected e) w1 = (w1, Failed e)) in
  quiet (buyCard gameId) (BuyCard gameId)
  ∧ quiet (sendChatMessage chatId message) (SendChatMessage chatId message)
  ∧ quiet (forceSelfDisconnect gameId) (ForceSelfDisconnect gameId).
Proof. simpl. split_and!; eexists; split_and!; reflexivity. Qed.

(** X13: [getChat] returns a chat exactly when it is given an id that is
    not the empty string and the store has a chat under that id; without
    an id, with the empty id (even if a chat is stored under it) or with
    an unknown id it returns [null]. *)
Theorem getChat_spec (chatId : option string) (s : SocketStore)
    (chat : Chat.t) :
  getChat chatId s = Some chat ↔
  ∃ id, chatId = Some id ∧ id ≠ EmptyString ∧ chats s !! id = Some chat.
Proof.
  unfold getChat. split.
  - destruct chatId as [[|a id]|]; [done| |done].
    intros Hchat. by exists (String a id).
  - intros (id & -> & Hid & Hchat). by destruct id.
Qed.

(** ** Event subscribers *)

(** X14: the three handlers [onPlayerStateChange] registers never write
    the store.  A "PlayerBuyCards", "PlayerBlocked" or "PlayerUno" event
    calls the caller's function once, with the tag "BuyCards" (and the
    amount), "Blocked" or "Uno" and the player id of the event; any other
    event calls nothing. *)
Theorem onPlayerStateChange_spec (fn : Callback) (ev : Pushed) (w : World) :
  store (deliver ev (onPlayerStateChange fn) w).1 = store w
  ∧ trace (deliver ev (onPlayerStateChange fn) w).1 =
      trace w ++
      match ev with
      | PlayerBuyCards playerId amountToBuy =>
          [Called fn (PlayerStateArgs "BuyCards" playerId (Some amountToBuy))
                  (store w)]
      | PlayerBlocked playerId =>
          [Called fn (PlayerStateArgs "Blocked" playerId None) (store w)]
      | PlayerUno playerId =>
          [Called fn (PlayerStateArgs "Uno" playerId None) (store w)]
      | _ => []
      end
  ∧ Forall (λ o, o = Finished ()) (deliver ev (onPlayerStateChange fn) w).2.
Proof.
  destruct ev; simpl; rewrite ?(right_id_L [] (++));
    split_and!; try done; repeat constructor.
Qed.

(** ** The opponents' view under optimistic mutations *)

Lemma fmap_unless_local (s : SocketStore) (f : PlayerData.t → PlayerData.t)
    (l : list PlayerData.t) :
  Forall (λ p, ¬ isLocal s p) l →
  (λ p, if decide (isLocal s p) then f p else p) <$> l = l.
Proof.
  induction 1 as [|p l Hp _ IH]; [done|].
  csimpl. rewrite decide_False by done. by f_equal.
Qed.

Lemma rotatedPlayers_same_local (s s' : SocketStore) :
  storePlayers s' = storePlayers s →
  localPlayerId s' = localPlayerId s →
  rotatedPlayers s' = rotatedPlayers s.
Proof.
  intros Hps Hlocal. unfold rotatedPlayers. rewrite Hps.
  destruct (storePlayers s) as [players|]; [|done].
  assert (findIndex (isLocal s') players = findIndex (isLocal s) players)
    as ->; [|done].
  unfold findIndex. rewrite (list_find_ext (isLocal s') (isLocal s)); [done|].
  intros p. unfold isLocal. by rewrite Hlocal.
Qed.

(** Rewriting the local player's entry, ids kept, does not change what
    [getOtherPlayers] shows when no other player has the local id. *)
Lemma getOtherPlayers_local_update (s s' : SocketStore)
    (f : PlayerData.t → PlayerData.t) (players : list PlayerData.t) :
  storePlayers s = Some players →
  storePlayers s' =
    Some ((λ p, if decide (isLocal s p) then f p else p) <$> players) →
  localPlayerId s' = localPlayerId s →
  (∀ p, PlayerData.id (f p) = PlayerData.id p) →
  NoDup (PlayerData.id <$> players) →
  getOtherPlayers s' = getOtherPlayers s.
Proof.
  intros Hps Hps' Hlocal Hid Hnodup.
  assert (rotatedPlayers s' = rotatedPlayers s) as Hrot.
  { destruct (find (isLocal s) players) as [me|] eqn:Hfind.
    - apply find_Some_split in Hfind
        as (before & after & -> & Hbefore & Hme).
      assert (Forall (λ p, ¬ isLocal s p) after) as Hafter.
      { rewrite fmap_app, fmap_cons in Hnodup.
        apply NoDup_app in Hnodup as (_ & _ & Hnodup).
        apply NoDup_cons in Hnodup as [Hfresh _].
        apply Forall_forall. intros p Hp Hplocal. apply Hfresh.
        unfold isLocal in Hme, Hplocal.
        assert (PlayerData.id me = PlayerData.id p) as -> by congruence.
        by apply list_elem_of_fmap_2. }
      rewrite fmap_app, fmap_cons in Hps'.
      rewrite !fmap_unless_local in Hps' by done.
      rewrite decide_True in Hps' by done.
      rewrite (rotatedPlayers_seated s before me after) by done.
      apply (rotatedPlayers_seated s' before (f me) after); [done| |].
      + eapply Forall_impl; [exact Hbefore|].
        intros p Hp. unfold isLocal in *. by rewrite Hlocal.
      + unfold isLocal in *. by rewrite Hlocal, Hid.
    - apply find_None in Hfind.
      rewrite fmap_unless_local in Hps' by done.
      apply rotatedPlayers_same_local; congruence. }
  unfold getOtherPlayers. rewrite Hrot, Hps, Hps'. by rewrite length_fmap.
Qed.

(** X16: with ids unique among the seated players, no optimistic mutation
    changes what [getOtherPlayers] shows: the result is the same after
    [toggleReady], after [putCard] and after a confirmed
    [toggleOnlineStatus] as before. *)
Theorem optimistic_mutations_keep_opponents (gameId : string)
    (cardIds : list string) (selectedColor : string) (v : Response)
    (w : World) (players : list PlayerData.t) :
  storePlayers (store w) = Some players →
  NoDup (PlayerData.id <$> players) →
  getOtherPlayers (store (exec (toggleReady gameId) w).1)
    = getOtherPlayers (store w)
  ∧ getOtherPlayers (store (exec (putCard gameId cardIds selectedColor) w).1)
    = getOtherPlayers (store w)
  ∧ getOtherPlayers
      (store (answered (toggleOnlineStatus gameId) (Resolved v) w).1)
    = getOtherPlayers (store w).
Proof.
  intros Hps Hnodup.
  pose proof Hps as Hgame. unfold storePlayers in Hgame.
  destruct (game (store w)) as [g|] eqn:Hg; [|done]. simpl in Hgame.
  split_and!.
  - apply (getOtherPlayers_local_update (store w) _
             (λ p, PlayerData.withReady (negb (PlayerData.ready p)) p)
             players); try done.
    simpl. unfold storePlayers. simpl. rewrite Hg. simpl. by rewrite Hgame.
  - destruct (getCurrentPlayer None (store w)) as [me|] eqn:Hseated.
    + pose proof Hseated
        as (g0 & players0 & Hg0 & Hps0 & Hme)%getCurrentPlayer_Some.
      assert (g0 = g) as -> by congruence.
      assert (players0 = players) as -> by congruence.
      destruct (Game.usedCards g) as [usedCards|] eqn:Hused.
      * rewrite (exec_putCard_seated gameId cardIds selectedColor w g players
                   usedCards me) by done.
        by apply (getOtherPlayers_local_update (store w) _
                    (withoutCards cardIds) players).
      * by rewrite (exec_putCard_throws gameId cardIds selectedColor w g me).
    + by rewrite (exec_putCard_unseated gameId cardIds selectedColor w).
  - apply (getOtherPlayers_local_update (store w) _
             (PlayerData.withStatus "online") players); try done.
    simpl. unfold storePlayers. simpl. rewrite Hg. simpl. by rewrite Hgame.
Qed.

Lemma optimistic_mutations_keep_opponents_witness :
  getOtherPlayers (store (exec (toggleReady "g1") (mkWorld tableOfFive [])).1)
    = getOtherPlayers tableOfFive
  ∧ getOtherPlayers
      (store (exec (putCard "g1" ["c1"] "red") (mkWorld tableOfFive [])).1)
    = getOtherPlayers tableOfFive
  ∧ getOtherPlayers
      (store (answered (toggleOnlineStatus "g1") (Resolved NoPayload)
                       (mkWorld tableOfFive [])).1)
    = getOtherPlayers tableOfFive.
Proof.
  apply (optimistic_mutations_keep_opponents "g1" ["c1"] "red" NoPayload
           (mkWorld tableOfFive []) [ann; bob; cat; dan; eve]).
  - reflexivity.
  - apply (bool_decide_unpack _). vm_compute. exact I.
Defined.

(** ** Order of the optimistic mutations *)

Lemma exec_toggleReady gameId w :
  exec (toggleReady gameId) w =
    (mkWorld
       (setGameData
          (Game.withPlayers
             ((λ player,
                 if decide (isLocal (store w) player)
                 then PlayerData.withReady (negb (PlayerData.ready player))
                        player
                 else player)
                <$> default [] (Game.players (Game.spread (game (store w)))))
             (Game.spread (game (store w))))
          (store w))
       (trace w ++ [Sent (ToggleReady gameId)]),
     Finished ()).
Proof. reflexivity. Qed.

Lemma getCurrentPlayer_after_toggleReady w :
  getCurrentPlayer None
    (setGameData
       (Game.withPlayers
          ((λ player,
              if decide (isLocal (store w) player)
              then PlayerData.withReady (negb (PlayerData.ready player))
                     player
              else player)
             <$> default [] (Game.players (Game.spread (game (store w)))))
          (Game.spread (game (store w))))
       (store w))
  = (λ player, PlayerData.withReady (negb (PlayerData.ready player)) player)
      <$> getCurrentPlayer None (store w).
Proof.
  unfold getCurrentPlayer at 1. unfold storePlayers. simpl.
  rewrite (find_isLocal_fmap (store w)); [|done|by intros p; case_decide].
  unfold getCurrentPlayer, storePlayers.
  destruct (game (store w)) as [g|]; [|done]. simpl.
  destruct (Game.players g) as [players|]; [|done]. simpl.
  destruct (find (isLocal (store w)) players) as [me|] eqn:Hme; [|done].
  simpl. by rewrite decide_True by by eapply find_elem_of.
Qed.

(** X17: [putCard] and [toggleReady] commute on the store: whichever of
    the two optimistic mutations is made first, the store ends the same
    (only the order of the two requests on the socket differs). *)
Theorem putCard_toggleReady_commute (gameId gameId' : string)
    (cardIds : list string) (selectedColor : string) (w : World) :
  store (exec (toggleReady gameId')
              (exec (putCard gameId cardIds selectedColor) w).1).1
  = store (exec (putCard gameId cardIds selectedColor)
                (exec (toggleReady gameId') w).1).1.
Proof.
  rewrite !exec_toggleReady. cbn [fst].
  pose proof (getCurrentPlayer_after_toggleReady w) as Hafter.
  destruct (getCurrentPlayer None (store w)) as [me|] eqn:Hseated.
  - pose proof Hseated
      as (g & players & Hg & Hps & Hme)%getCurrentPlayer_Some.
    pose proof Hafter as (g' & players' & Hg' & Hps' & Hme')%getCurrentPlayer_Some.
    simpl in Hg'. injection Hg' as <-. simpl in Hps'. injection Hps' as <-.
    destruct (Game.usedCards g) as [usedCards|] eqn:Hused.
    + rewrite (exec_putCard_seated gameId cardIds selectedColor w g players
                 usedCards me) by done.
      erewrite (exec_putCard_seated gameId cardIds selectedColor _ _ _
                  usedCards);
        [|reflexivity|reflexivity| |exact Hme'].
      * cbn [fst store game]. rewrite Hg. simpl. rewrite Hps. simpl.
        unfold setGameData, Game.withPlayers, Game.withPlayersAndUsedCards.
        simpl. do 3 f_equal.
        rewrite <- !list_fmap_compose. f_equal.
        apply list_fmap_ext. intros _ p _. simpl.
        unfold isLocal, localPlayerId. simpl.
        destruct (decide (_ = Some (PlayerData.id p))) as [Hlocal|Hlocal];
          simpl; [by rewrite !decide_True|by rewrite !decide_False].
      * simpl. rewrite Hg. simpl. done.
    + rewrite (exec_putCard_throws gameId cardIds selectedColor w g me)
        by done.
      erewrite (exec_putCard_throws gameId cardIds selectedColor);
        [done|reflexivity| |].
      * simpl. rewrite Hg. simpl. done.
      * exact Hafter.
  - rewrite (exec_putCard_unseated gameId cardIds selectedColor w) by done.
    rewrite exec_putCard_unseated; [done|]. exact Hafter.
Qed.
